(** * A backtracking combinator parser and its evaluator

    Shallow embedding of the Go program (the variant with variables and
    user-defined functions): the combinator engine, the grammar built from
    it, and the tree-walking evaluator [Eval]/[Exec].

    Conventions.
    - A Go [string] is a [string] of bytes ([ascii]).
    - A [*Node] is an [option Node]; [None] is the nil pointer.
    - A Go call either returns, panics (index out of range, nil
      dereference) or runs forever; the three are the constructors [Ret],
      [Panic] and [NoFuel] of [Res].  Loops without a bound ([for { }]) and
      recursive calls are driven by a fuel argument.  [Unmodelled] marks the
      one place where the embedding stops short of the library: number
      texts that are not decimal integers.
    - [float64] is the kernel's binary64 [float].
    - A Go map is a reference: maps live in a store ([Heap]) and a [Memory]
      holds two references, each nil or the location of a map. *)

From Stdlib Require Import ZArith Floats Ascii String List Lia.
From stdpp Require Import gmap strings list.

Open Scope string_scope.

(** ** Outcomes of a call *)

Inductive Res (A : Type) : Type :=
| Ret (a : A)
| Panic
| NoFuel
| Unmodelled.

Arguments Ret {A} a.
Arguments Panic {A}.
Arguments NoFuel {A}.
Arguments Unmodelled {A}.

(** [Res] is a monad; sequencing is written [x ← m; k]. *)
#[global] Instance Res_ret : MRet Res := fun A a => Ret a.
#[global] Instance Res_bind : MBind Res := fun A B k m =>
  match m with
  | Ret a => k a
  | Panic => Panic
  | NoFuel => NoFuel
  | Unmodelled => Unmodelled
  end.

Definition terminates {A : Type} (r : Res A) : Prop := r <> NoFuel.

(** ** The tree *)

(** [type Node struct { Type NodeType; Children []*Node; Value string }].
    [Type] is reserved, the tag is the field [Typ]. *)
#[warnings="-register-all"]
Inductive Node : Type :=
  mkNode { Typ : string; Children : list (option Node); Value : string }.

Definition Char : string := "Char".
Definition Whitespace : string := "Whitespace".

(** [type Parser func(input string) (node *Node, rest string, ok bool)] *)
Definition PResult : Type := option Node * string * bool.
Definition Parser : Type := string -> Res PResult.

(** What every failing branch of the engine returns: [nil, "", false]. *)
Definition failure : PResult := (None, "", false).

(** ** Byte strings: indexing and slicing *)

(** [input[i:j]] and [input[i:]] for in-range bounds. *)
Definition slice (i j : nat) (s : string) : string := substring i (j - i) s.
Definition slice_from (i : nat) (s : string) : string :=
  substring i (String.length s - i) s.

(** ** Regular expressions

    The patterns of the program are sequences of quantified byte classes.
    [matchHere] is the leftmost-first (greedy, backtracking) match anchored
    at the start of the text, and [FindStringIndex] scans for the leftmost
    position where it succeeds, as the method [FindStringIndex] of Go's
    [regexp] package does. *)

Inductive Quant : Type := One | Opt | Star | Plus.

Definition Regexp : Type := list ((ascii -> bool) * Quant).

Fixpoint matchHere (re : Regexp) (s : string) {struct re} : option nat :=
  match re with
  | [] => Some 0
  | (c, q) :: re' =>
      let one (k : string -> option nat) (s : string) : option nat :=
        match s with
        | String x xs => if c x then S <$> k xs else None
        | EmptyString => None
        end in
      let star :=
        fix star (s : string) : option nat :=
          match s with
          | String x xs =>
              if c x then
                match star xs with
                | Some n => Some (S n)
                | None => matchHere re' s
                end
              else matchHere re' s
          | EmptyString => matchHere re' s
          end in
      match q with
      | One => one (matchHere re') s
      | Opt =>
          match one (matchHere re') s with
          | Some n => Some n
          | None => matchHere re' s
          end
      | Star => star s
      | Plus => one star s
      end
  end.

Fixpoint FindStringIndex (re : Regexp) (s : string) : option (nat * nat) :=
  match matchHere re s with
  | Some n => Some (0, n)
  | None =>
      match s with
      | EmptyString => None
      | String _ s' =>
          match FindStringIndex re s' with
          | Some (a, b) => Some (S a, S b)
          | None => None
          end
      end
  end.

(** Byte classes. *)
Definition is_byte (c : ascii) : ascii -> bool := Ascii.eqb c.
Definition in_range (lo hi : ascii) (x : ascii) : bool :=
  (Ascii.leb lo x && Ascii.leb x hi)%bool.
Definition is_digit : ascii -> bool := in_range "0" "9".
Definition is_alpha (x : ascii) : bool :=
  (in_range "a" "z" x || in_range "A" "Z" x)%bool.
Definition is_alnum (x : ascii) : bool := (is_alpha x || is_digit x)%bool.
Definition is_line_delim (x : ascii) : bool :=
  (Ascii.eqb x "010" || Ascii.eqb x ";")%bool.

(** ** Primitive parsers *)

Definition Digit : Parser := fun input =>
  match input with
  | String c rest =>
      if is_digit c
      then Ret (Some (mkNode Char [] (String c "")), rest, true)
      else Ret failure
  | EmptyString => Ret failure
  end.

Definition Character (chr : ascii) : Parser := fun input =>
  match input with
  | String c rest =>
      if Ascii.eqb c chr
      then Ret (Some (mkNode Char [] (String c "")), rest, true)
      else Ret failure
  | EmptyString => Ret failure
  end.

Definition Regex (outType : string) (regex : Regexp) : Parser := fun input =>
  match FindStringIndex regex input with
  | None => Ret failure
  | Some (i0, i1) =>
      if negb (Nat.eqb i0 0) then Ret failure
      else Ret (Some (mkNode outType [] (slice i0 i1 input)),
                slice_from i1 input, true)
  end.

(** ** Combinators *)

(** [Some]: the body of the [for { }] loop, with the loop variables
    [node.Children] and [rest] as arguments.  One unit of fuel per
    iteration. *)
Fixpoint Some_loop (fuel : nat) (outType : string) (parser : Parser)
    (children : list (option Node)) (rest : string) : Res PResult :=
  match fuel with
  | 0 => NoFuel
  | S fuel' =>
      '(parserNode, parserRest, parserOk) ← parser rest;
      if negb parserOk
      then Ret (Some (mkNode outType children ""), rest, true)
      else Some_loop fuel' outType parser (children ++ [parserNode]) parserRest
  end.

(** [Some] of the source ([Some] is the constructor of [option] here). *)
Definition Some_ (fuel : nat) (outType : string) (parser : Parser) : Parser :=
  fun input => Some_loop fuel outType parser [] input.

(** Go's [int] is 64 bits wide here; [num++] wraps. *)
Definition wrap64 (z : Z) : Z := ((z + 2 ^ 63) mod 2 ^ 64 - 2 ^ 63)%Z.

Fixpoint AtLeast_loop (fuel : nat) (outType : string) (minimum : Z)
    (parser : Parser) (num : Z) (children : list (option Node))
    (rest : string) : Res PResult :=
  match fuel with
  | 0 => NoFuel
  | S fuel' =>
      '(parserNode, parserRest, parserOk) ← parser rest;
      if negb parserOk then
        if (minimum <=? num)%Z
        then Ret (Some (mkNode outType children ""), rest, true)
        else Ret failure
      else AtLeast_loop fuel' outType minimum parser (wrap64 (num + 1))
             (children ++ [parserNode]) parserRest
  end.

Definition AtLeast (fuel : nat) (outType : string) (minimum : Z)
    (parser : Parser) : Parser :=
  fun input => AtLeast_loop fuel outType minimum parser 0%Z [] input.

Fixpoint Or (parsers : list Parser) (input : string) : Res PResult :=
  match parsers with
  | [] => Ret failure
  | parser :: parsers' =>
      '(parserNode, parserRest, parserOk) ← parser input;
      if (parserOk : bool) then Ret (parserNode, parserRest, true)
      else Or parsers' input
  end.

Fixpoint Then_loop (outType : string) (parsers : list Parser)
    (children : list (option Node)) (rest : string) : Res PResult :=
  match parsers with
  | [] => Ret (Some (mkNode outType children ""), rest, true)
  | parser :: parsers' =>
      '(parserNode, parserRest, parserOk) ← parser rest;
      if negb parserOk then Ret failure
      else Then_loop outType parsers' (children ++ [parserNode]) parserRest
  end.

Definition Then (outType : string) (parsers : list Parser) : Parser :=
  fun input => Then_loop outType parsers [] input.

Fixpoint ThenSkipping_loop (outType : string) (skip : Parser)
    (parsers : list Parser) (children : list (option Node)) (rest : string)
    : Res PResult :=
  match parsers with
  | [] => Ret (Some (mkNode outType children ""), rest, true)
  | parser :: parsers' =>
      '(_, skipRest, skipOk) ← skip rest;
      let rest := if (skipOk : bool) then skipRest else rest in
      '(parserNode, parserRest, parserOk) ← parser rest;
      if negb parserOk then Ret failure
      else ThenSkipping_loop outType skip parsers'
             (children ++ [parserNode]) parserRest
  end.

Definition ThenSkipping (outType : string) (skip : Parser)
    (parsers : list Parser) : Parser :=
  fun input => ThenSkipping_loop outType skip parsers [] input.

Definition Skipping (skip : Parser) (parser : Parser) : Parser := fun input =>
  '(_, skipRest, skipOk) ← skip input;
  let input := if (skipOk : bool) then skipRest else input in
  parser input.

Definition As (outType : string) (parser : Parser) : Parser := fun input =>
  '(parserNode, parserRest, parserOk) ← parser input;
  Ret (Some (mkNode outType [parserNode] ""), parserRest, parserOk).

(** ** The grammar *)

(** ["-?[0-9]+"], ["[a-zA-Z][a-zA-Z0-9]*"], [",?"], [" *"], ["[\n;]*"]. *)
Definition Number : Parser :=
  Regex "Number" [(is_byte "-", Opt); (is_digit, Plus)].
(** [Variable] is reserved. *)
Definition Variable_ : Parser :=
  Regex "Variable" [(is_alpha, One); (is_alnum, Star)].
Definition ArguementDelimeter : Parser :=
  Regex "ArgumentDelimeter" [(is_byte ",", Opt)].
Definition WS : Parser := Regex Whitespace [(is_byte " ", Star)].
Definition LineDelim : Parser := Regex Whitespace [(is_line_delim, Star)].

(** The rules [Expression], [Sum], [Multiplication], [Unit] and
    [FunctionCall] call each other; every cycle goes through [Expression].
    Each rule is first written over the [Expression] it calls, and
    [Expression] then closes the cycle, one unit of fuel per call.  The same
    fuel bounds the iterations of the loops inside. *)
Section Rules.
Variable fuel : nat.
Variable Expression : Parser.

Definition FunctionCall_of : Parser :=
  ThenSkipping "FunctionCall" WS
    [ Variable_;
      Character "(";
      Some_ fuel "Arguments"
        (ThenSkipping "Argument" WS [Expression; ArguementDelimeter]);
      Character ")" ].

Definition Unit_of : Parser :=
  Or [ ThenSkipping "Unit" WS [Character "("; Expression; Character ")"];
       Skipping WS FunctionCall_of;
       Skipping WS Variable_;
       Skipping WS Number ].

Definition Multiplication_of : Parser :=
  Or [ ThenSkipping "Multiplication" WS
         [ Unit_of;
           AtLeast fuel "Terms" 1
             (ThenSkipping "Term" WS
                [ Or [As "OpMult" (Character "*"); As "OpDiv" (Character "/")];
                  Unit_of ]) ];
       Skipping WS Unit_of ].

Definition Sum_of : Parser :=
  Or [ ThenSkipping "Sum" WS
         [ Multiplication_of;
           AtLeast fuel "Terms" 1
             (ThenSkipping "Term" WS
                [ Or [As "OpAdd" (Character "+"); As "OpMinus" (Character "-")];
                  Multiplication_of ]) ];
       Skipping WS Multiplication_of ].
End Rules.

Fixpoint Expression (fuel : nat) : Parser :=
  match fuel with
  | 0 => fun _ => NoFuel
  | S fuel' => As "Expression" (Sum_of fuel' (Expression fuel'))
  end.

Definition Sum (fuel : nat) : Parser := Sum_of fuel (Expression fuel).
Definition Multiplication (fuel : nat) : Parser :=
  Multiplication_of fuel (Expression fuel).
Definition Unit (fuel : nat) : Parser := Unit_of fuel (Expression fuel).
Definition FunctionCall (fuel : nat) : Parser :=
  FunctionCall_of fuel (Expression fuel).

Definition FunctionDeclaration (fuel : nat) : Parser :=
  ThenSkipping "FunctionDeclaration" WS
    [ Variable_;
      Character "(";
      Some_ fuel "Parameters"
        (ThenSkipping "Parameter" WS [Variable_; ArguementDelimeter]);
      Character ")";
      Character "=";
      Expression fuel ].

Definition VariableDeclaration (fuel : nat) : Parser :=
  ThenSkipping "VariableDeclaration" WS
    [Variable_; Character "="; Expression fuel].

Definition Declaration (fuel : nat) : Parser :=
  Or [VariableDeclaration fuel; FunctionDeclaration fuel].

Definition Program (fuel : nat) : Parser :=
  Some_ fuel "Lines"
    (ThenSkipping "Line" WS
       [Or [Declaration fuel; Expression fuel]; LineDelim]).

(** ** Numbers

    [strconv.ParseFloat(text, 64)] on a decimal integer literal (an optional
    sign and one or more digits, which is all the [Number] rule can
    produce): the binary64 value nearest to the integer, ties to even,
    infinite beyond the range.  Other texts are outside the embedding
    ([None]). *)

Definition digit_value (c : ascii) : Z := (Z.of_N (N_of_ascii c) - 48)%Z.

Fixpoint digits_to_Z (acc : Z) (s : string) : option Z :=
  match s with
  | EmptyString => Some acc
  | String c s' =>
      if is_digit c then digits_to_Z (10 * acc + digit_value c)%Z s'
      else None
  end.

Definition float_of_Z (negative : bool) (z : Z) : float :=
  SF2Prim (binary_normalize prec emax (if negative then - z else z)%Z 0
             negative).

Definition ParseFloat (text : string) : option float :=
  let '(negative, digits) :=
    match text with
    | String "-" s' => (true, s')
    | String "+" s' => (false, s')
    | _ => (false, text)
    end in
  match digits with
  | EmptyString => None
  | _ => float_of_Z negative <$> digits_to_Z 0 digits
  end.

(** ** The environment *)

Record MemoryFunction : Type := mkMemoryFunction
  { Parameters : list string; FExpression : option Node }.

(** The store of maps: the maps that [make] has allocated, in the order of
    their allocation. *)
Record Heap : Type := mkHeap
  { vmaps : list (gmap string float);
    fmaps : list (gmap string MemoryFunction) }.

(** A map value of Go is nil ([None]) or the location of a map of the store.
    The zero [Memory] holds two nil maps. *)
Record Memory : Type := mkMemory
  { Variables : option nat; Functions : option nat }.

(** [maps !! r]: the map a reference points to; there is none behind nil.
    A nil reference stays nil whatever is allocated later. *)
#[global] Instance reference_lookup {A : Type}
    : Lookup (option nat) A (list A) | 100 :=
  fun r maps =>
    match r with
    | Some l => maps !! l
    | None => None
    end.

Definition empty_heap : Heap := mkHeap [] [].

(** [make(map[string]float64)] and [make(map[string]MemoryFunction)]: a new
    empty map, and the reference to it. *)
Definition make_vars (h : Heap) : option nat * Heap :=
  (Some (length (vmaps h)), mkHeap (vmaps h ++ [∅]) (fmaps h)).

Definition make_funs (h : Heap) : option nat * Heap :=
  (Some (length (fmaps h)), mkHeap (vmaps h) (fmaps h ++ [∅])).

(** Reading a nil map gives the zero value, as reading a missing key does. *)
Definition read_var (h : Heap) (r : option nat) (name : string) : float :=
  default 0%float (vmaps h !! r ≫= (.!! name)).

Definition zero_function : MemoryFunction := mkMemoryFunction [] None.

Definition read_fun (h : Heap) (r : option nat) (name : string)
    : MemoryFunction :=
  default zero_function (fmaps h !! r ≫= (.!! name)).

(** Writing to a nil map panics. *)
Definition store_var (r : option nat) (name : string) (value : float)
    (h : Heap) : Res Heap :=
  match r with
  | Some l =>
      match vmaps h !! l with
      | Some m =>
          Ret (mkHeap (<[l := <[name := value]> m]> (vmaps h)) (fmaps h))
      | None => Panic
      end
  | None => Panic
  end.

Definition store_fun (r : option nat) (name : string) (f : MemoryFunction)
    (h : Heap) : Res Heap :=
  match r with
  | Some l =>
      match fmaps h !! l with
      | Some m => Ret (mkHeap (vmaps h) (<[l := <[name := f]> m]> (fmaps h)))
      | None => Panic
      end
  | None => Panic
  end.

(** The entries a [range] over the map behind [r] visits (none for nil). *)
Definition range_vars (h : Heap) (r : option nat) : list (string * float) :=
  match vmaps h !! r with
  | Some m => map_to_list m
  | None => []
  end.

(** ** The evaluator *)

(** [node.Children[i]] and the dereference of a [*Node]. *)
Definition deref (node : option Node) : Res Node :=
  match node with
  | Some n => Ret n
  | None => Panic
  end.

Definition child (node : Node) (i : nat) : Res (option Node) :=
  match Children node !! i with
  | Some c => Ret c
  | None => Panic
  end.

Section EvalLoops.
(** The recursive calls of [Eval] inside the loops. *)
Variable ev : option Node -> Memory -> Heap -> Res (float * Heap).
Variable memory : Memory.

(** [for _, sum := range ... { if sum.Children[0].Type == tag { number
    op1= ... } else { number op2= ... } }] *)
Fixpoint fold_terms (tag : string) (op1 op2 : float -> float -> float)
    (terms : list (option Node)) (number : float) (h : Heap)
    : Res (float * Heap) :=
  match terms with
  | [] => Ret (number, h)
  | term :: terms' =>
      term ← deref term;
      operator ← child term 0;
      operator ← deref operator;
      if String.eqb (Typ operator) tag then
        operand ← child term 1;
        '(value, h) ← ev operand memory h;
        fold_terms tag op1 op2 terms' (op1 number value) h
      else
        operand ← child term 1;
        '(value, h) ← ev operand memory h;
        fold_terms tag op1 op2 terms' (op2 number value) h
  end.

(** [for _, argument := range ... { arguments = append(arguments,
    Eval(argument.Children[0], memory)) }] *)
Fixpoint eval_arguments (nodes : list (option Node))
    (arguments : list float) (h : Heap) : Res (list float * Heap) :=
  match nodes with
  | [] => Ret (arguments, h)
  | argument :: nodes' =>
      argument ← deref argument;
      expression ← child argument 0;
      '(value, h) ← ev expression memory h;
      eval_arguments nodes' (arguments ++ [value]) h
  end.
End EvalLoops.

(** [for name, value := range memory.Variables { variableCopy[name] = value }] *)
Fixpoint copy_variables (variableCopy : option nat)
    (entries : list (string * float)) (h : Heap) : Res Heap :=
  match entries with
  | [] => Ret h
  | (name, value) :: entries' =>
      h ← store_var variableCopy name value h;
      copy_variables variableCopy entries' h
  end.

(** [for i, argument := range arguments { if i < len(function.Parameters)
    { variableCopy[function.Parameters[i]] = argument } }] *)
Fixpoint bind_arguments (variableCopy : option nat)
    (parameters : list string) (i : nat) (arguments : list float) (h : Heap)
    : Res Heap :=
  match arguments with
  | [] => Ret h
  | argument :: arguments' =>
      h ← (match parameters !! i with
           | Some parameter => store_var variableCopy parameter argument h
           | None => Ret h
           end);
      bind_arguments variableCopy parameters (S i) arguments' h
  end.

Fixpoint Eval (fuel : nat) (node : option Node) (memory : Memory) (h : Heap)
    : Res (float * Heap) :=
  match fuel with
  | 0 => NoFuel
  | S fuel' =>
      node ← deref node;
      if String.eqb (Typ node) "Expression" then
        c0 ← child node 0;
        Eval fuel' c0 memory h
      else if String.eqb (Typ node) "Sum" then
        c0 ← child node 0;
        '(number, h) ← Eval fuel' c0 memory h;
        c1 ← child node 1;
        terms ← deref c1;
        fold_terms (Eval fuel') memory "OpAdd" PrimFloat.add PrimFloat.sub
          (Children terms) number h
      else if String.eqb (Typ node) "Multiplication" then
        c0 ← child node 0;
        '(number, h) ← Eval fuel' c0 memory h;
        c1 ← child node 1;
        terms ← deref c1;
        fold_terms (Eval fuel') memory "OpMult" PrimFloat.mul PrimFloat.div
          (Children terms) number h
      else if String.eqb (Typ node) "Unit" then
        c1 ← child node 1;
        Eval fuel' c1 memory h
      else if String.eqb (Typ node) "Number" then
        match ParseFloat (Value node) with
        | Some number => Ret (number, h)
        | None => Unmodelled
        end
      else if String.eqb (Typ node) "Variable" then
        Ret (read_var h (Variables memory) (Value node), h)
      else if String.eqb (Typ node) "FunctionCall" then
        c0 ← child node 0;
        name ← deref c0;
        let function := read_fun h (Functions memory) (Value name) in
        c2 ← child node 2;
        args ← deref c2;
        '(arguments, h) ←
          eval_arguments (Eval fuel') memory (Children args) [] h;
        let '(variableCopy, h) := make_vars h in
        h ← copy_variables variableCopy (range_vars h (Variables memory)) h;
        h ← bind_arguments variableCopy (Parameters function) 0 arguments h;
        let scopeMemory := mkMemory variableCopy (Functions memory) in
        Eval fuel' (FExpression function) scopeMemory h
      else Ret (0%float, h)
  end.

(** ** Running a program

    [fmt.Println] is the only effect of [Exec] besides the environment; the
    lines it prints are collected in order. *)

Inductive LineResult : Type :=
| Assignment (name : string) (value : float)
| LineValue (value : float).

(** [for _, parameter := range ... { parameters = append(parameters,
    parameter.Children[0].Value) }] *)
Fixpoint collect_parameters (nodes : list (option Node))
    (parameters : list string) : Res (list string) :=
  match nodes with
  | [] => Ret parameters
  | parameter :: nodes' =>
      parameter ← deref parameter;
      c0 ← child parameter 0;
      name ← deref c0;
      collect_parameters nodes' (parameters ++ [Value name])
  end.

(** One iteration of the loop of [Exec]: the new store and what was printed. *)
Definition Exec_line (fuel : nat) (node : option Node) (memory : Memory)
    (h : Heap) : Res (Heap * list LineResult) :=
  node ← deref node;
  line ← child node 0;
  line ← deref line;
  if String.eqb (Typ line) "VariableDeclaration" then
    c0 ← child line 0;
    name ← deref c0;
    c2 ← child line 2;
    '(value, h) ← Eval fuel c2 memory h;
    h ← store_var (Variables memory) (Value name) value h;
    Ret (h, [Assignment (Value name)
               (read_var h (Variables memory) (Value name))])
  else if String.eqb (Typ line) "Expression" then
    '(value, h) ← Eval fuel (Some line) memory h;
    Ret (h, [LineValue value])
  else if String.eqb (Typ line) "FunctionDeclaration" then
    c2 ← child line 2;
    ps ← deref c2;
    parameters ← collect_parameters (Children ps) [];
    c0 ← child line 0;
    name ← deref c0;
    c5 ← child line 5;
    h ← store_fun (Functions memory) (Value name)
          (mkMemoryFunction parameters c5) h;
    Ret (h, [])
  else Ret (h, []).

(** The loop over [program.Children]: what was printed so far, and how the
    run ended. *)
Fixpoint Exec_lines (fuel : nat) (nodes : list (option Node))
    (memory : Memory) (h : Heap) (printed : list LineResult)
    : list LineResult * Res Heap :=
  match nodes with
  | [] => (printed, Ret h)
  | node :: nodes' =>
      match Exec_line fuel node memory h with
      | Ret (h, out) => Exec_lines fuel nodes' memory h (printed ++ out)
      | Panic => (printed, Panic)
      | NoFuel => (printed, NoFuel)
      | Unmodelled => (printed, Unmodelled)
      end
  end.

Definition Exec (fuel : nat) (program : option Node)
    : list LineResult * Res Heap :=
  let '(variables, h) := make_vars empty_heap in
  let '(functions, h) := make_funs h in
  let memory := mkMemory variables functions in
  match program with
  | Some program => Exec_lines fuel (Children program) memory h []
  | None => ([], Panic)
  end.

(** [main] without its input and output: parse, then run when the parse
    succeeded. *)
Definition parse_exec (fuel : nat) (text : string)
    : Res (list LineResult * Res Heap) :=
  '(node, rest, ok) ← Program fuel text;
  if (ok : bool) then Ret (Exec fuel node) else Ret ([], Ret empty_heap).

(** Parse one expression and evaluate it in a fresh environment; nothing is
    evaluated when the parse fails. *)
Definition parse_eval (fuel : nat) (text : string) : Res (option float) :=
  '(node, rest, ok) ← Expression fuel text;
  if (ok : bool) then
    let '(variables, h) := make_vars empty_heap in
    let '(functions, h) := make_funs h in
    '(value, _) ← Eval fuel node (mkMemory variables functions) h;
    Ret (Some value)
  else Ret None.

(** ** Fuel order

    [r ⊑ r'] when [r'] is what [r] becomes with more fuel. *)
#[global] Instance Res_below {A : Type} : SqSubsetEq (Res A) :=
  fun r r' => r = NoFuel \/ r = r'.

#[global] Instance Parser_below : SqSubsetEq Parser :=
  fun p q => forall input, p input ⊑ q input.

(** ** Classes of parsers *)

(** Trees written by hand. *)
Definition leaf (tag value : string) : option Node :=
  Some (mkNode tag [] value).
Definition tree (tag : string) (children : list (option Node)) : option Node :=
  Some (mkNode tag children "").

(** The parsers of the engine: the primitives, closed under the
    combinators. *)
#[warnings="-register-all"]
Inductive engine : Parser -> Prop :=
| engine_Digit : engine Digit
| engine_Character chr : engine (Character chr)
| engine_Regex outType regex : engine (Regex outType regex)
| engine_Some fuel outType p : engine p -> engine (Some_ fuel outType p)
| engine_AtLeast fuel outType minimum p :
    engine p -> engine (AtLeast fuel outType minimum p)
| engine_Or ps : Forall engine ps -> engine (Or ps)
| engine_Then outType ps : Forall engine ps -> engine (Then outType ps)
| engine_ThenSkipping outType skip ps :
    engine skip -> Forall engine ps ->
    engine (ThenSkipping outType skip ps)
| engine_Skipping skip p :
    engine skip -> engine p -> engine (Skipping skip p)
| engine_As outType p : engine p -> engine (As outType p).

(** The parsers whose failing branch is [return nil, "", false]: all of the
    engine but [As], and [Skipping] when what it delegates to is one.  The
    sub-parsers are arbitrary. *)
Inductive nil_failing : Parser -> Prop :=
| nf_Digit : nil_failing Digit
| nf_Character chr : nil_failing (Character chr)
| nf_Regex outType regex : nil_failing (Regex outType regex)
| nf_Some fuel outType p : nil_failing (Some_ fuel outType p)
| nf_AtLeast fuel outType minimum p :
    nil_failing (AtLeast fuel outType minimum p)
| nf_Or ps : nil_failing (Or ps)
| nf_Then outType ps : nil_failing (Then outType ps)
| nf_ThenSkipping outType skip ps :
    nil_failing (ThenSkipping outType skip ps)
| nf_Skipping skip p : nil_failing p -> nil_failing (Skipping skip p).

Definition fails_with_nil (p : Parser) : Prop :=
  forall input n r, p input = Ret (n, r, false) -> n = None /\ r = "".

(** What the repetition is meant to compute: [repeats p input children
    rest] when applying [p] again and again from [input] succeeds with the
    nodes [children], in order, and then fails at [rest]. *)
Inductive repeats (p : Parser) : string -> list (option Node) -> string -> Prop :=
| repeats_stop input n r :
    p input = Ret (n, r, false) -> repeats p input [] input
| repeats_step input n r children rest :
    p input = Ret (n, r, true) -> repeats p r children rest ->
    repeats p input (n :: children) rest.

(** ** Sequences *)

(** Where a parser of a [ThenSkipping] starts: after what the skip parser
    took when the skip parser succeeded, where it stands when the skip parser
    failed. *)
Definition skipped (skip : Parser) (s from : string) : Prop :=
  exists n r ok,
    skip s = Ret (n, r, ok) /\ from = (if (ok : bool) then r else s).

(** [sequence start ps input children rest]: the parsers [ps] succeed one
    after the other, each from where [start] leads from the place the one
    before it stopped; [children] are the nodes the parsers return, in
    order, and [rest] is where the last one stopped. *)
Inductive sequence (start : string -> string -> Prop)
    : list Parser -> string -> list (option Node) -> string -> Prop :=
| sequence_nil input : sequence start [] input [] input
| sequence_cons p ps input from n r children rest :
    start input from -> p from = Ret (n, r, true) ->
    sequence start ps r children rest ->
    sequence start (p :: ps) input (n :: children) rest.

(** ** Numbers that are not finite *)

Definition non_finite (x : float) : bool := (is_infinity x || is_nan x)%bool.

Definition sf_non_finite (x : spec_float) : bool :=
  match x with
  | S754_nan | S754_infinity _ => true
  | _ => false
  end.

(** ** Stores that grow

    [heap_extends h h']: every map of [h] is in [h'] at the same location
    with the same entries, and the maps of functions are the same. *)
Definition heap_extends (h h' : Heap) : Prop :=
  vmaps h `prefix_of` vmaps h' /\ fmaps h' = fmaps h.

Definition frames (ev : option Node -> Memory -> Heap -> Res (float * Heap))
    : Prop :=
  forall node memory h value h',
    ev node memory h = Ret (value, h') -> heap_extends h h'.

(** The trees of ["f(9)"] and ["x*2"]. *)
Definition call_f_9 : option Node :=
  tree "Expression"
    [tree "FunctionCall"
       [leaf "Variable" "f"; leaf Char "(";
        tree "Arguments"
          [tree "Argument"
             [tree "Expression" [leaf "Number" "9"];
              leaf "ArgumentDelimeter" ""]];
        leaf Char ")"]].

Definition x_times_2 : option Node :=
  tree "Expression"
    [tree "Multiplication"
       [leaf "Variable" "x";
        tree "Terms"
          [tree "Term" [tree "OpMult" [leaf Char "*"]; leaf "Number" "2"]]]].

(** The tree of the chain ["3*1/0*2"]. *)
Definition div_operator : Node := mkNode "OpDiv" [leaf Char "/"] "".
Definition div_term : Node :=
  mkNode "Term" [Some div_operator; leaf "Number" "0"] "".
Definition mul_term (number : string) : option Node :=
  tree "Term" [tree "OpMult" [leaf Char "*"]; leaf "Number" number].
Definition chain_terms : Node :=
  mkNode "Terms" [mul_term "1"; Some div_term; mul_term "2"] "".
Definition chain : Node :=
  mkNode "Multiplication" [leaf "Number" "3"; Some chain_terms] "".

(** One turn of the copy loop, on the map itself. *)
Definition put (m : gmap string float) (entry : string * float)
    : gmap string float :=
  <[entry.1 := entry.2]> m.

(** A store where [x] is 5 and [f(x) = x*2] is declared. *)
Definition heap_x_5 : Heap :=
  mkHeap [{["x" := 5%float]}] [{["f" := mkMemoryFunction ["x"] x_times_2]}].

(** ** Remainders *)

(** [suffix_of r s]: [r] is what is left of [s] after some prefix. *)
Definition suffix_of (r s : string) : Prop := exists pre, s = pre ++ r.

(** The longest prefix of bytes of a class, and what follows it. *)
Fixpoint take_class (c : ascii -> bool) (s : string) : string :=
  match s with
  | String x xs => if c x then String x (take_class c xs) else ""
  | EmptyString => ""
  end.

Fixpoint drop_class (c : ascii -> bool) (s : string) : string :=
  match s with
  | String x xs => if c x then drop_class c xs else s
  | EmptyString => ""
  end.

(** ** Trees without nil *)

(** [no_nil node]: no child of [node], at any depth, is the nil pointer. *)
Fixpoint no_nil (node : Node) : bool :=
  let 'mkNode _ children _ := node in
  forallb (fun child =>
             match child with
             | Some c => no_nil c
             | None => false
             end) children.

Definition all_no_nil (children : list (option Node)) : bool :=
  forallb (fun child =>
             match child with
             | Some c => no_nil c
             | None => false
             end) children.

(** What a parser owes its callers when it succeeds: a tree without nil and
    a remainder that is a suffix of the input. *)
Definition well_behaved (p : Parser) : Prop :=
  forall input n r,
    p input = Ret (n, r, true) ->
    suffix_of r input /\ exists node, n = Some node /\ no_nil node = true.

(** [sound_on k strict p]: on every input shorter than [k], [p] returns; when
    it succeeds the remainder is a suffix of the input, a shorter one when
    [strict]. *)
Definition sound_on (k : nat) (strict : bool) (p : Parser) : Prop :=
  forall s,
    String.length s < k ->
    exists n r ok,
      p s = Ret (n, r, ok)
      /\ (ok = true ->
          suffix_of r s
          /\ (strict = true -> String.length r < String.length s)).

(** A pattern with an item that must match at least once. *)
Definition nonempty (re : Regexp) : bool :=
  existsb (fun item =>
             match snd item with
             | One | Plus => true
             | Opt | Star => false
             end) re.

(** ** Blanks *)

Fixpoint spaces (n : nat) : string :=
  match n with
  | 0 => ""
  | S n' => String " " (spaces n')
  end.

(** A parser that does not see a blank in front of its input. *)
Definition blank_insensitive (p : Parser) : Prop :=
  forall s, p (String " " s) = p s.

(** ** Printing a tree *)

(** The method [String] of [*Node], for a receiver that is not nil.  The
    receiver of the recursive call can be nil: its [node.Type] panics. *)
Section Printing.
Variable render : Node -> Res string.

(** [for i, child := range node.Children { if i > 0 && child.Type != Char
    { output += " " }; output += child.String() }] *)
Fixpoint String_range (i : nat) (children : list (option Node))
    (output : string) : Res string :=
  match children with
  | [] => Ret output
  | child :: children' =>
      output ←
        (if Nat.ltb 0 i then
           c ← deref child;
           Ret (if negb (String.eqb (Typ c) Char)
                then output ++ " " else output)
         else Ret output);
      text ← match child with
             | Some c => render c
             | None => Panic
             end;
      String_range (S i) children' (output ++ text)
  end.
End Printing.

Fixpoint Node_String (node : Node) : Res string :=
  let 'mkNode typ children value := node in
  if String.eqb typ "Whitespace" then Ret ""
  else if negb (String.eqb value "") then Ret value
  else
    output ← String_range Node_String 0 children (typ ++ "[");
    Ret (output ++ "]").

(** The trees of calls such as ["f(9,4)"]. *)
Definition argument (number : string) : option Node :=
  tree "Argument"
    [tree "Expression" [leaf "Number" number]; leaf "ArgumentDelimeter" ""].

Definition call_of (name : string) (arguments : list (option Node)) : Node :=
  mkNode "FunctionCall"
    [leaf "Variable" name; leaf Char "("; tree "Arguments" arguments;
     leaf Char ")"] "".

(** ** Trees the evaluator can walk *)

(** [shaped node]: wherever [Eval] indexes a child or dereferences one on its
    way through [node], the child is there. *)
#[warnings="-register-all"]
Inductive shaped : Node -> Prop :=
| shaped_Expression node c0 :
    Typ node = "Expression" ->
    Children node !! 0 = Some (Some c0) -> shaped c0 ->
    shaped node
| shaped_chain node c0 terms :
    Typ node = "Sum" \/ Typ node = "Multiplication" ->
    Children node !! 0 = Some (Some c0) -> shaped c0 ->
    Children node !! 1 = Some (Some terms) ->
    Forall (fun t =>
              exists term operator operand,
                t = Some term
                /\ Children term !! 0 = Some (Some operator)
                /\ Children term !! 1 = Some (Some operand)
                /\ shaped operand) (Children terms) ->
    shaped node
| shaped_Unit node c1 :
    Typ node = "Unit" ->
    Children node !! 1 = Some (Some c1) -> shaped c1 ->
    shaped node
| shaped_Number node x :
    Typ node = "Number" -> ParseFloat (Value node) = Some x -> shaped node
| shaped_Variable node :
    Typ node = "Variable" -> shaped node
| shaped_FunctionCall node name args :
    Typ node = "FunctionCall" ->
    Children node !! 0 = Some (Some name) ->
    Children node !! 2 = Some (Some args) ->
    Forall (fun a =>
              exists argument expression,
                a = Some argument
                /\ Children argument !! 0 = Some (Some expression)
                /\ shaped expression) (Children args) ->
    shaped node.

(** [calls_known known node]: every call in [node], at any depth, is of a
    name that [known] accepts. *)
Fixpoint calls_known (known : string -> bool) (node : Node) : bool :=
  let 'mkNode typ children _ := node in
  (if String.eqb typ "FunctionCall" then
     match children with
     | Some name :: _ => known (Value name)
     | _ => true
     end
   else true)
  && forallb (fun child =>
                match child with
                | Some c => calls_known known c
                | None => true
                end) children.

(** The functions [known] accepts are declared, with bodies the evaluator
    can walk and that call known names only. *)
Definition functions_known (known : string -> bool)
    (funs : gmap string MemoryFunction) : Prop :=
  forall f,
    known f = true ->
    exists parameters body,
      funs !! f = Some (mkMemoryFunction parameters (Some body))
      /\ shaped body /\ calls_known known body = true.

(** A call that returned or is still running: it did not panic. *)
Definition safe {A : Type} (r : Res A) : Prop :=
  match r with
  | Ret _ | NoFuel => True
  | Panic | Unmodelled => False
  end.

(** An evaluator that does not panic on the trees above, in a store where
    the known functions are declared. *)
Definition safe_evaluator (known : string -> bool)
    (funs : gmap string MemoryFunction)
    (ev : option Node -> Memory -> Heap -> Res (float * Heap)) : Prop :=
  forall node memory h,
    fmaps h !! Functions memory = Some funs ->
    shaped node -> calls_known known node = true ->
    safe (ev (Some node) memory h).

(** [yields p c]: [c] is a node that [p] returns on some success. *)
Definition yields (p : Parser) (c : option Node) : Prop :=
  exists input rest, p input = Ret (c, rest, true).

(** A node that is there and that the evaluator can walk. *)
Definition shaped_node (c : option Node) : Prop :=
  exists node, c = Some node /\ shaped node.

(** With [bound] units of fuel or more, the evaluation of [node] returns,
    whatever the environment, and leaves the store as it is. *)
Definition returns_from (bound : nat) (node : Node) : Prop :=
  forall fuel memory h,
    bound <= fuel -> exists value, Eval fuel (Some node) memory h = Ret (value, h).

(** The node behind a pointer that is not nil. *)
Definition the_node (c : option Node) : Node := default (mkNode "" [] "") c.

(** The only known name is [f]. *)
Definition only_f (name : string) : bool := String.eqb name "f".

(** ** Lines the runner can walk *)

(** What a line holds, as the grammar builds it: a variable declaration
    with a name and an expression, a function declaration with a name,
    parameters that each have a name, and a sixth child, or an
    expression. *)
Definition statement_ok (line : Node) : Prop :=
  (Typ line = "VariableDeclaration"
   /\ exists name expression,
        Children line !! 0 = Some (Some name)
        /\ Children line !! 2 = Some (Some expression)
        /\ shaped expression)
  \/ (Typ line = "FunctionDeclaration"
      /\ exists name ps body,
           Children line !! 0 = Some (Some name)
           /\ Children line !! 2 = Some (Some ps)
           /\ Forall (fun p =>
                        exists parameter pname,
                          p = Some parameter
                          /\ Children parameter !! 0 = Some (Some pname))
                (Children ps)
           /\ Children line !! 5 = Some body)
  \/ (Typ line = "Expression" /\ shaped line).

Definition line_ok (c : option Node) : Prop :=
  exists line others,
    c = tree "Line" (Some line :: others) /\ statement_ok line.

(** A reference a run can hold: nil, or the location of a map of the
    store. *)
Definition reference_in {A : Type} (maps : list A) (r : option nat) : Prop :=
  match r with
  | Some l => l < length maps
  | None => True
  end.

(** The tree of the text of an expression (nil when it is not one). *)
Definition parsed (text : string) : option Node :=
  match Expression 40 text with
  | Ret (node, _, true) => node
  | _ => None
  end.

(** [runs fuel memory lines h out h']: the lines run one after the other and
    each of them returns, the first from the store [h] and every other from
    the store the line before it left; [out] is what they print, in order,
    and [h'] is the store the last one leaves. *)
Inductive runs (fuel : nat) (memory : Memory)
    : list (option Node) -> Heap -> list LineResult -> Heap -> Prop :=
| runs_nil h : runs fuel memory [] h [] h
| runs_cons line lines h h1 out1 out h' :
    Exec_line fuel line memory h = Ret (h1, out1) ->
    runs fuel memory lines h1 out h' ->
    runs fuel memory (line :: lines) h (out1 ++ out)%list h'.

(** Both maps of the environment are in the store. *)
Definition allocated (memory : Memory) (h : Heap) : Prop :=
  is_Some (vmaps h !! Variables memory)
  /\ is_Some (fmaps h !! Functions memory).

(** * Properties *)

(** ** Fuel *)

Lemma below_refl {A : Type} (r : Res A) : r ⊑ r.
Proof. right; reflexivity. Qed.

Lemma below_NoFuel {A : Type} (r : Res A) : NoFuel ⊑ r.
Proof. left; reflexivity. Qed.

Lemma below_Ret {A : Type} (a : A) (r : Res A) : Ret a ⊑ r -> r = Ret a.
Proof. intros [H | H]; [discriminate | auto]. Qed.

Lemma below_bind {A B : Type} (m m' : Res A) (k k' : A -> Res B) :
  m ⊑ m' -> (forall a, k a ⊑ k' a) -> m ≫= k ⊑ m' ≫= k'.
Proof.
  intros [-> | ->] Hk; [apply below_NoFuel |].
  destruct m'; simpl; auto using below_refl.
Qed.

Lemma Parser_below_refl (p : Parser) : p ⊑ p.
Proof. intros input; apply below_refl. Qed.

Lemma Some_loop_mono fuel fuel' outType (p q : Parser) children rest :
  fuel <= fuel' -> p ⊑ q ->
  Some_loop fuel outType p children rest
    ⊑ Some_loop fuel' outType q children rest.
Proof.
  intros Hle Hpq. revert fuel' Hle children rest.
  induction fuel as [| fuel IH]; intros fuel' Hle children rest;
    [apply below_NoFuel |].
  destruct fuel' as [| fuel']; [lia |]. simpl.
  apply below_bind; [apply Hpq |].
  intros [[n r] ok]. destruct ok; simpl; [apply IH; lia | apply below_refl].
Qed.

Lemma AtLeast_loop_mono fuel fuel' outType minimum (p q : Parser) num
    children rest :
  fuel <= fuel' -> p ⊑ q ->
  AtLeast_loop fuel outType minimum p num children rest
    ⊑ AtLeast_loop fuel' outType minimum q num children rest.
Proof.
  intros Hle Hpq. revert fuel' Hle num children rest.
  induction fuel as [| fuel IH]; intros fuel' Hle num children rest;
    [apply below_NoFuel |].
  destruct fuel' as [| fuel']; [lia |]. simpl.
  apply below_bind; [apply Hpq |].
  intros [[n r] ok]. destruct ok; simpl; [apply IH; lia | apply below_refl].
Qed.

Lemma Some_mono fuel fuel' outType (p q : Parser) :
  fuel <= fuel' -> p ⊑ q -> Some_ fuel outType p ⊑ Some_ fuel' outType q.
Proof. intros ? ? input. apply Some_loop_mono; assumption. Qed.

Lemma AtLeast_mono fuel fuel' outType minimum (p q : Parser) :
  fuel <= fuel' -> p ⊑ q ->
  AtLeast fuel outType minimum p ⊑ AtLeast fuel' outType minimum q.
Proof. intros ? ? input. apply AtLeast_loop_mono; assumption. Qed.

Lemma Or_mono (ps qs : list Parser) :
  Forall2 (⊑) ps qs -> Or ps ⊑ Or qs.
Proof.
  induction 1 as [| p q ps qs Hpq _ IH]; intros input; simpl;
    [apply below_refl |].
  apply below_bind; [apply Hpq |].
  intros [[n r] ok]. destruct ok; [apply below_refl | apply IH].
Qed.

Lemma Then_loop_mono outType (ps qs : list Parser) children rest :
  Forall2 (⊑) ps qs ->
  Then_loop outType ps children rest ⊑ Then_loop outType qs children rest.
Proof.
  intros H. revert children rest.
  induction H as [| p q ps qs Hpq _ IH]; intros children rest; simpl;
    [apply below_refl |].
  apply below_bind; [apply Hpq |].
  intros [[n r] ok]. destruct ok; simpl; [apply IH | apply below_refl].
Qed.

Lemma Then_mono outType (ps qs : list Parser) :
  Forall2 (⊑) ps qs -> Then outType ps ⊑ Then outType qs.
Proof. intros ? input. apply Then_loop_mono; assumption. Qed.

Lemma ThenSkipping_loop_mono outType (s s' : Parser) (ps qs : list Parser)
    children rest :
  s ⊑ s' -> Forall2 (⊑) ps qs ->
  ThenSkipping_loop outType s ps children rest
    ⊑ ThenSkipping_loop outType s' qs children rest.
Proof.
  intros Hs H. revert children rest.
  induction H as [| p q ps qs Hpq _ IH]; intros children rest; simpl;
    [apply below_refl |].
  apply below_bind; [apply Hs |].
  intros [[? skipRest] skipOk].
  apply below_bind; [apply Hpq |].
  intros [[n r] ok]. destruct ok; simpl; [apply IH | apply below_refl].
Qed.

Lemma ThenSkipping_mono outType (s s' : Parser) (ps qs : list Parser) :
  s ⊑ s' -> Forall2 (⊑) ps qs ->
  ThenSkipping outType s ps ⊑ ThenSkipping outType s' qs.
Proof. intros ? ? input. apply ThenSkipping_loop_mono; assumption. Qed.

Lemma Skipping_mono (s s' p q : Parser) :
  s ⊑ s' -> p ⊑ q -> Skipping s p ⊑ Skipping s' q.
Proof.
  intros Hs Hp input. unfold Skipping.
  apply below_bind; [apply Hs |].
  intros [[? skipRest] skipOk]. apply Hp.
Qed.

Lemma As_mono outType (p q : Parser) : p ⊑ q -> As outType p ⊑ As outType q.
Proof.
  intros Hp input. unfold As.
  apply below_bind; [apply Hp |].
  intros [[n r] ok]. apply below_refl.
Qed.

(** A parser built from the combinators grows with its fuel and with its
    sub-parsers. *)
Ltac mono :=
  repeat match goal with
  | |- _ <= _ => assumption
  | H : @sqsubseteq _ _ ?p ?q |- @sqsubseteq _ _ ?p ?q => exact H
  | |- @sqsubseteq _ _ (Or _) (Or _) => apply Or_mono
  | |- @sqsubseteq _ _ (ThenSkipping _ _ _) (ThenSkipping _ _ _) =>
      apply ThenSkipping_mono
  | |- @sqsubseteq _ _ (Then _ _) (Then _ _) => apply Then_mono
  | |- @sqsubseteq _ _ (Skipping _ _) (Skipping _ _) => apply Skipping_mono
  | |- @sqsubseteq _ _ (As _ _) (As _ _) => apply As_mono
  | |- @sqsubseteq _ _ (Some_ _ _ _) (Some_ _ _ _) => apply Some_mono
  | |- @sqsubseteq _ _ (AtLeast _ _ _ _) (AtLeast _ _ _ _) =>
      apply AtLeast_mono
  | |- Forall2 _ _ _ => constructor
  | |- @sqsubseteq _ _ (Character _) _ => apply Parser_below_refl
  | |- @sqsubseteq _ _ (Regex _ _) _ => apply Parser_below_refl
  | |- @sqsubseteq _ _ WS _ => apply Parser_below_refl
  | |- @sqsubseteq _ _ Variable_ _ => apply Parser_below_refl
  | |- @sqsubseteq _ _ Number _ => apply Parser_below_refl
  | |- @sqsubseteq _ _ ArguementDelimeter _ => apply Parser_below_refl
  | |- @sqsubseteq _ _ LineDelim _ => apply Parser_below_refl
  end.

Section RulesMono.
Context (fuel fuel' : nat) (e e' : Parser).
Hypothesis Hfuel : fuel <= fuel'.
Hypothesis He : e ⊑ e'.

Lemma FunctionCall_of_mono : FunctionCall_of fuel e ⊑ FunctionCall_of fuel' e'.
Proof. unfold FunctionCall_of. mono. Qed.

Lemma Unit_of_mono : Unit_of fuel e ⊑ Unit_of fuel' e'.
Proof. pose proof FunctionCall_of_mono. unfold Unit_of. mono. Qed.

Lemma Multiplication_of_mono :
  Multiplication_of fuel e ⊑ Multiplication_of fuel' e'.
Proof. pose proof Unit_of_mono. unfold Multiplication_of. mono. Qed.

Lemma Sum_of_mono : Sum_of fuel e ⊑ Sum_of fuel' e'.
Proof. pose proof Multiplication_of_mono. unfold Sum_of. mono. Qed.
End RulesMono.

Lemma Expression_mono fuel fuel' :
  fuel <= fuel' -> Expression fuel ⊑ Expression fuel'.
Proof.
  revert fuel'. induction fuel as [| fuel IH]; intros fuel' Hle.
  - intros input. apply below_NoFuel.
  - destruct fuel' as [| fuel']; [lia |]. simpl.
    apply As_mono, Sum_of_mono; [lia | apply IH; lia].
Qed.

Lemma Program_mono fuel fuel' : fuel <= fuel' -> Program fuel ⊑ Program fuel'.
Proof.
  intros Hle. pose proof (Expression_mono fuel fuel' Hle).
  unfold Program, Declaration, VariableDeclaration, FunctionDeclaration.
  mono.
Qed.

(** Once a parse has ended, more fuel does not change it. *)
Lemma Program_fuel fuel fuel' input r :
  Program fuel input = Ret r -> fuel <= fuel' -> Program fuel' input = Ret r.
Proof.
  intros H Hle. apply below_Ret. rewrite <- H. apply Program_mono, Hle.
Qed.

Lemma Expression_fuel fuel fuel' input r :
  Expression fuel input = Ret r -> fuel <= fuel' ->
  Expression fuel' input = Ret r.
Proof.
  intros H Hle. apply below_Ret. rewrite <- H. apply Expression_mono, Hle.
Qed.

Section EvalLoopsMono.
Context (ev ev' : option Node -> Memory -> Heap -> Res (float * Heap)).
Hypothesis Hev : forall node memory h, ev node memory h ⊑ ev' node memory h.

Lemma fold_terms_mono memory tag op1 op2 terms number h :
  fold_terms ev memory tag op1 op2 terms number h
    ⊑ fold_terms ev' memory tag op1 op2 terms number h.
Proof.
  revert number h.
  induction terms as [| term terms IH]; intros number h; simpl;
    [apply below_refl |].
  apply below_bind; [apply below_refl | intros term'].
  apply below_bind; [apply below_refl | intros operator].
  apply below_bind; [apply below_refl | intros operator'].
  destruct (String.eqb (Typ operator') tag);
    (apply below_bind; [apply below_refl | intros operand]);
    (apply below_bind; [apply Hev | intros [value h']]); apply IH.
Qed.

Lemma eval_arguments_mono memory nodes arguments h :
  eval_arguments ev memory nodes arguments h
    ⊑ eval_arguments ev' memory nodes arguments h.
Proof.
  revert arguments h.
  induction nodes as [| node nodes IH]; intros arguments h; simpl;
    [apply below_refl |].
  apply below_bind; [apply below_refl | intros argument].
  apply below_bind; [apply below_refl | intros expression].
  apply below_bind; [apply Hev | intros [value h']]. apply IH.
Qed.
End EvalLoopsMono.

Lemma Eval_mono fuel fuel' node memory h :
  fuel <= fuel' -> Eval fuel node memory h ⊑ Eval fuel' node memory h.
Proof.
  revert fuel' node memory h.
  induction fuel as [| fuel IH]; intros fuel' node memory h Hle;
    [apply below_NoFuel |].
  destruct fuel' as [| fuel']; [lia |].
  assert (Hev : forall node memory h,
             Eval fuel node memory h ⊑ Eval fuel' node memory h)
    by (intros; apply IH; lia).
  simpl.
  apply below_bind; [apply below_refl | intros n].
  repeat match goal with
         | |- (if ?b then _ else _) ⊑ _ => destruct b
         end.
  - apply below_bind; [apply below_refl | intros c0]. apply Hev.
  - apply below_bind; [apply below_refl | intros c0].
    apply below_bind; [apply Hev | intros [number h1]].
    apply below_bind; [apply below_refl | intros c1].
    apply below_bind; [apply below_refl | intros terms].
    apply fold_terms_mono, Hev.
  - apply below_bind; [apply below_refl | intros c0].
    apply below_bind; [apply Hev | intros [number h1]].
    apply below_bind; [apply below_refl | intros c1].
    apply below_bind; [apply below_refl | intros terms].
    apply fold_terms_mono, Hev.
  - apply below_bind; [apply below_refl | intros c1]. apply Hev.
  - apply below_refl.
  - apply below_refl.
  - apply below_bind; [apply below_refl | intros c0].
    apply below_bind; [apply below_refl | intros name].
    apply below_bind; [apply below_refl | intros c2].
    apply below_bind; [apply below_refl | intros args].
    apply below_bind; [apply eval_arguments_mono, Hev | intros [arguments h1]].
    destruct (make_vars h1) as [variableCopy h2].
    apply below_bind; [apply below_refl | intros h3].
    apply below_bind; [apply below_refl | intros h4].
    apply Hev.
  - apply below_refl.
Qed.

Lemma Eval_fuel fuel fuel' node memory h r :
  Eval fuel node memory h = Ret r -> fuel <= fuel' ->
  Eval fuel' node memory h = Ret r.
Proof.
  intros H Hle. apply below_Ret. rewrite <- H. apply Eval_mono, Hle.
Qed.

Lemma Exec_line_mono fuel fuel' node memory h :
  fuel <= fuel' ->
  Exec_line fuel node memory h ⊑ Exec_line fuel' node memory h.
Proof.
  intros Hle. unfold Exec_line.
  apply below_bind; [apply below_refl | intros n].
  apply below_bind; [apply below_refl | intros line].
  apply below_bind; [apply below_refl | intros line'].
  repeat match goal with
         | |- (if ?b then _ else _) ⊑ _ => destruct b
         end; try apply below_refl.
  - apply below_bind; [apply below_refl | intros c0].
    apply below_bind; [apply below_refl | intros name].
    apply below_bind; [apply below_refl | intros c2].
    apply below_bind; [apply Eval_mono, Hle | intros [value h1]].
    apply below_refl.
  - apply below_bind; [apply Eval_mono, Hle | intros [value h1]].
    apply below_refl.
Qed.

(** A run that ended (normally or by a panic) is the same with more fuel. *)
Lemma Exec_lines_fuel fuel fuel' nodes memory h printed :
  fuel <= fuel' ->
  terminates (snd (Exec_lines fuel nodes memory h printed)) ->
  Exec_lines fuel' nodes memory h printed
  = Exec_lines fuel nodes memory h printed.
Proof.
  intros Hle. revert h printed.
  induction nodes as [| node nodes IH]; intros h printed T; simpl in *;
    [reflexivity |].
  destruct (Exec_line_mono fuel fuel' node memory h Hle) as [E | E].
  - rewrite E in T. simpl in T. exfalso. apply T. reflexivity.
  - rewrite <- E.
    destruct (Exec_line fuel node memory h) as [[h1 out] | | |];
      try reflexivity.
    apply IH, T.
Qed.

Lemma Exec_fuel fuel fuel' program :
  fuel <= fuel' -> terminates (snd (Exec fuel program)) ->
  Exec fuel' program = Exec fuel program.
Proof.
  intros Hle T. unfold Exec in *. simpl in *.
  destruct program as [program |]; [| reflexivity].
  apply Exec_lines_fuel; assumption.
Qed.

Lemma parse_exec_fuel fuel fuel' text printed h :
  parse_exec fuel text = Ret (printed, h) -> terminates h -> fuel <= fuel' ->
  parse_exec fuel' text = Ret (printed, h).
Proof.
  unfold parse_exec. intros H T Hle.
  destruct (Program fuel text) as [[[node rest] ok] | | |] eqn:E;
    try discriminate.
  rewrite (Program_fuel _ _ _ _ E Hle). simpl in *.
  destruct ok; [| assumption].
  inversion H as [H'].
  rewrite (Exec_fuel fuel fuel' node Hle); [reflexivity |].
  rewrite H'. exact T.
Qed.

Lemma parse_eval_fuel fuel fuel' text r :
  parse_eval fuel text = Ret r -> fuel <= fuel' ->
  parse_eval fuel' text = Ret r.
Proof.
  unfold parse_eval. intros H Hle.
  destruct (Expression fuel text) as [[[node rest] ok] | | |] eqn:E;
    try discriminate.
  rewrite (Expression_fuel _ _ _ _ E Hle). simpl in *.
  destruct ok; [| assumption].
  destruct (Eval fuel node _ _) as [[value h] | | |] eqn:E'; try discriminate.
  rewrite (Eval_fuel _ _ _ _ _ _ E' Hle). assumption.
Qed.

(** ** The engine *)

Lemma Digit_failure : fails_with_nil Digit.
Proof.
  intros [| c s] n r; simpl; [| destruct (is_digit c)];
    intros H; inversion H; auto.
Qed.

Lemma Character_failure chr : fails_with_nil (Character chr).
Proof.
  intros [| c s] n r; simpl; [| destruct (Ascii.eqb c chr)];
    intros H; inversion H; auto.
Qed.

Lemma Regex_failure outType regex : fails_with_nil (Regex outType regex).
Proof.
  intros input n r. unfold Regex.
  destruct (FindStringIndex regex input) as [[i0 i1] |];
    [destruct (negb (Nat.eqb i0 0)) |]; intros H; inversion H; auto.
Qed.

(** [Some] has no failing branch. *)
Lemma Some_loop_ok fuel outType p children rest n r ok :
  Some_loop fuel outType p children rest = Ret (n, r, ok) -> ok = true.
Proof.
  revert children rest.
  induction fuel as [| fuel IH]; intros children rest; simpl;
    [discriminate |].
  destruct (p rest) as [[[pn pr] []] | | |]; simpl; try discriminate.
  - apply IH.
  - intros H; inversion H; reflexivity.
Qed.

Lemma Some_failure fuel outType p : fails_with_nil (Some_ fuel outType p).
Proof.
  intros input n r H. apply Some_loop_ok in H. discriminate.
Qed.

Lemma AtLeast_loop_failure fuel outType minimum p num children rest n r :
  AtLeast_loop fuel outType minimum p num children rest = Ret (n, r, false) ->
  n = None /\ r = "".
Proof.
  revert num children rest.
  induction fuel as [| fuel IH]; intros num children rest; simpl;
    [discriminate |].
  destruct (p rest) as [[[pn pr] []] | | |]; simpl; try discriminate.
  - apply IH.
  - destruct (minimum <=? num)%Z; intros H; inversion H; auto.
Qed.

Lemma AtLeast_failure fuel outType minimum p :
  fails_with_nil (AtLeast fuel outType minimum p).
Proof. intros input n r. apply AtLeast_loop_failure. Qed.

Lemma Or_failure ps : fails_with_nil (Or ps).
Proof.
  intros input n r. induction ps as [| p ps IH]; simpl.
  - intros H; inversion H; auto.
  - destruct (p input) as [[[pn pr] []] | | |]; simpl; try discriminate.
    apply IH.
Qed.

Lemma Then_loop_failure outType ps children rest n r :
  Then_loop outType ps children rest = Ret (n, r, false) -> n = None /\ r = "".
Proof.
  revert children rest.
  induction ps as [| p ps IH]; intros children rest; simpl;
    [discriminate |].
  destruct (p rest) as [[[pn pr] []] | | |]; simpl; try discriminate.
  - apply IH.
  - intros H; inversion H; auto.
Qed.

Lemma ThenSkipping_loop_failure outType skip ps children rest n r :
  ThenSkipping_loop outType skip ps children rest = Ret (n, r, false) ->
  n = None /\ r = "".
Proof.
  revert children rest.
  induction ps as [| p ps IH]; intros children rest; simpl;
    [discriminate |].
  destruct (skip rest) as [[[sn sr] sok] | | |]; simpl; try discriminate.
  destruct (p _) as [[[pn pr] []] | | |]; simpl; try discriminate.
  - apply IH.
  - intros H; inversion H; auto.
Qed.

Lemma Skipping_failure skip p :
  fails_with_nil p -> fails_with_nil (Skipping skip p).
Proof.
  intros Hp input n r. unfold Skipping.
  destruct (skip input) as [[[sn sr] sok] | | |]; simpl; try discriminate.
  apply Hp.
Qed.

Lemma nil_failing_failure p : nil_failing p -> fails_with_nil p.
Proof.
  induction 1.
  - apply Digit_failure.
  - apply Character_failure.
  - apply Regex_failure.
  - apply Some_failure.
  - apply AtLeast_failure.
  - apply Or_failure.
  - intros input n r. apply Then_loop_failure.
  - intros input n r. apply ThenSkipping_loop_failure.
  - apply Skipping_failure; assumption.
Qed.

(** Ordered choice moves on to the next alternative with the input it was
    given. *)
Lemma Or_retry p ps input n r :
  p input = Ret (n, r, false) -> Or (p :: ps) input = Or ps input.
Proof. intros H. simpl. rewrite H. reflexivity. Qed.

(** The first alternative that succeeds decides. *)
Lemma Or_first p ps input n r :
  p input = Ret (n, r, true) -> Or (p :: ps) input = Ret (n, r, true).
Proof. intros H. simpl. rewrite H. reflexivity. Qed.

(** C2, as stated, fails: a failing parser of the engine does not hand back
    the input it was given.  [Character "a"] on ["b"] fails with the
    remainder [""]. *)
Lemma failure_does_not_return_input :
  ~ (forall p, engine p ->
     forall input n r, p input = Ret (n, r, false) -> n = None /\ r = input).
Proof.
  intros H.
  destruct (H (Character "a") (engine_Character "a") "b" None "" eq_refl)
    as [_ Hr].
  discriminate Hr.
Qed.

(** C2 (amended): every primitive, and every parser built by [Some],
    [AtLeast], [Or], [Then], [ThenSkipping], or by [Skipping] over such a
    parser, fails with no node and the empty remainder; and when an
    alternative of an ordered choice has failed, the choice goes on with the
    remaining alternatives on the input it was given. *)
Theorem failure_is_nil (p : Parser) (input : string) (n : option Node)
    (r : string) :
  nil_failing p ->
  p input = Ret (n, r, false) ->
  (n = None /\ r = "")
  /\ (forall alternatives, Or (p :: alternatives) input = Or alternatives input).
Proof.
  intros Hp H. split.
  - exact (nil_failing_failure p Hp input n r H).
  - intros alternatives. exact (Or_retry p alternatives input n r H).
Qed.

Lemma failure_is_nil_witness :
  (@None Node = None /\ "" = "")
  /\ (forall alternatives,
        Or (Skipping WS (Character "a") :: alternatives) " b"
        = Or alternatives " b").
Proof.
  apply (failure_is_nil (Skipping WS (Character "a")) " b" None "").
  - apply nf_Skipping, nf_Character.
  - reflexivity.
Defined.

(** C9: when the wrapped parser fails, [As] still returns a node: it carries
    the tag, its only child is what the wrapped parser returned as its node
    (nil when that parser is one that fails with nil), and [ok] is false. *)
Theorem As_failure (outType : string) (p : Parser) (input : string)
    (n : option Node) (r : string) :
  p input = Ret (n, r, false) ->
  exists node,
    As outType p input = Ret (Some node, r, false)
    /\ Typ node = outType
    /\ Children node = [n]
    /\ (nil_failing p -> n = None).
Proof.
  intros H. exists (mkNode outType [n] "").
  unfold As. rewrite H. simpl. repeat split.
  intros Hp. exact (proj1 (nil_failing_failure p Hp input n r H)).
Qed.

Lemma As_failure_witness :
  exists node,
    As "OpAdd" (Character "+") "-1" = Ret (Some node, "", false)
    /\ Typ node = "OpAdd"
    /\ Children node = [None]
    /\ (nil_failing (Character "+") -> @None Node = None).
Proof. apply (As_failure "OpAdd" (Character "+") "-1" None ""). reflexivity. Defined.

(** ** Repetition *)

Section Repetition.
Variable p : Parser.
(** Every success of [p] consumes at least one byte. *)
Hypothesis Hconsumes :
  forall input n r,
    p input = Ret (n, r, true) -> String.length r < String.length input.

Lemma Some_loop_terminates outType :
  (forall input, terminates (p input)) ->
  forall fuel children rest,
    String.length rest < fuel ->
    terminates (Some_loop fuel outType p children rest).
Proof.
  intros Hterm fuel.
  induction fuel as [| fuel IH]; intros children rest Hlen; [lia |].
  simpl. specialize (Hterm rest).
  destruct (p rest) as [[[pn pr] []] | | |] eqn:E; simpl;
    try discriminate; [| contradiction].
  apply IH. apply Hconsumes in E. lia.
Qed.

Lemma AtLeast_loop_terminates outType minimum :
  (forall input, terminates (p input)) ->
  forall fuel num children rest,
    String.length rest < fuel ->
    terminates (AtLeast_loop fuel outType minimum p num children rest).
Proof.
  intros Hterm fuel.
  induction fuel as [| fuel IH]; intros num children rest Hlen; [lia |].
  simpl. specialize (Hterm rest).
  destruct (p rest) as [[[pn pr] []] | | |] eqn:E; simpl;
    try discriminate; [| | contradiction].
  - apply IH. apply Hconsumes in E. lia.
  - destruct (minimum <=? num)%Z; discriminate.
Qed.

Lemma Some_loop_repeats outType :
  (forall input, exists res, p input = Ret res) ->
  forall fuel acc input,
    String.length input < fuel ->
    exists children rest,
      Some_loop fuel outType p acc input
      = Ret (tree outType (acc ++ children), rest, true)
      /\ repeats p input children rest.
Proof.
  intros Hret fuel.
  induction fuel as [| fuel IH]; intros acc input Hlen; [lia |].
  simpl. destruct (Hret input) as [[[pn pr] ok] E]. rewrite E. simpl.
  destruct ok; simpl.
  - destruct (IH (acc ++ [pn])%list pr) as (children & rest & Hrun & Hrep).
    { apply Hconsumes in E. lia. }
    exists (pn :: children), rest. split.
    + rewrite Hrun, <- app_assoc. reflexivity.
    + eapply repeats_step; eassumption.
  - exists [], input. split.
    + rewrite app_nil_r. reflexivity.
    + eapply repeats_stop; eassumption.
Qed.
End Repetition.

(** C6, as stated, fails: [Some] does not succeed for every sub-parser.  Over
    a sub-parser that succeeds without consuming (the whitespace pattern
    matches the empty text) the loop never ends. *)
Lemma Some_of_WS_loops :
  ~ (forall (p : Parser) (input : string),
       exists fuel node rest, Some_ fuel "Blanks" p input = Ret (node, rest, true)).
Proof.
  intros H. destruct (H WS "") as (fuel & node & rest & Hrun).
  unfold Some_ in Hrun. revert Hrun. generalize (@nil (option Node)).
  induction fuel as [| fuel IH]; intros children; simpl; [discriminate |].
  apply IH.
Qed.

(** C6 (amended): over a sub-parser that returns on every input and whose
    every success consumes input, [Some] succeeds on every input; its
    children are the successive successes in order and its remainder is where
    the sub-parser first fails; no success at all gives no children and the
    input as the remainder. *)
Theorem Some_repeats (outType : string) (p : Parser) (input : string)
    (fuel : nat) :
  (forall s, exists res, p s = Ret res) ->
  (forall s n r, p s = Ret (n, r, true) -> String.length r < String.length s) ->
  String.length input < fuel ->
  exists children rest,
    Some_ fuel outType p input = Ret (tree outType children, rest, true)
    /\ repeats p input children rest
    /\ ((exists n r, p input = Ret (n, r, false)) ->
        children = [] /\ rest = input).
Proof.
  intros Hret Hcons Hlen.
  destruct (Some_loop_repeats p Hcons outType Hret fuel [] input Hlen)
    as (children & rest & Hrun & Hrep).
  exists children, rest. split; [exact Hrun | split; [exact Hrep |]].
  intros (n & r & Hfail). inversion Hrep; subst; [auto | congruence].
Qed.

Lemma Character_returns chr input : exists res, Character chr input = Ret res.
Proof.
  destruct input as [| c s]; simpl; [| destruct (Ascii.eqb c chr)]; eauto.
Qed.

Lemma Character_consumes chr input n r :
  Character chr input = Ret (n, r, true) ->
  String.length r < String.length input.
Proof.
  destruct input as [| c s]; simpl; [| destruct (Ascii.eqb c chr)];
    intros H; inversion H; subst; simpl; lia.
Qed.

Lemma Some_repeats_witness :
  exists children rest,
    Some_ 4 "As" (Character "a") "aab" = Ret (tree "As" children, rest, true)
    /\ repeats (Character "a") "aab" children rest
    /\ ((exists n r, Character "a" "aab" = Ret (n, r, false)) ->
        children = [] /\ rest = "aab").
Proof.
  apply (Some_repeats "As" (Character "a") "aab" 4).
  - apply Character_returns.
  - apply Character_consumes.
  - simpl. lia.
Defined.


Lemma Character_terminates chr input : terminates (Character chr input).
Proof.
  destruct (Character_returns chr input) as [res E]. rewrite E. discriminate.
Qed.


(** ** The grammar on concrete texts *)

Lemma Program_never_fails fuel input n r ok :
  Program fuel input = Ret (n, r, ok) -> ok = true.
Proof. unfold Program, Some_. apply Some_loop_ok. Qed.

(** C1, as stated, fails: the parse of ["1+"] succeeds, and no amount of
    fuel makes it fail. *)
Lemma Program_one_plus_succeeds :
  (exists node, Program 2 "1+" = Ret (Some node, "+", true))
  /\ ~ (exists fuel node rest, Program fuel "1+" = Ret (node, rest, false)).
Proof.
  split.
  - eexists. vm_compute. reflexivity.
  - intros (fuel & node & rest & H).
    apply Program_never_fails in H. discriminate.
Qed.

(** C1 (amended): the parse of ["1+"] succeeds: the prefix ["1"] is one line
    of the tree and ["+"] is returned as the remainder. *)
Theorem Program_one_plus (fuel : nat) :
  2 <= fuel ->
  Program fuel "1+"
  = Ret (tree "Lines"
           [tree "Line"
              [tree "Expression" [leaf "Number" "1"]; leaf Whitespace ""]],
         "+", true).
Proof.
  intros Hle. apply (Program_fuel 2); [| exact Hle].
  vm_compute. reflexivity.
Qed.

Lemma Program_one_plus_witness :
  Program 5 "1+"
  = Ret (tree "Lines"
           [tree "Line"
              [tree "Expression" [leaf "Number" "1"]; leaf Whitespace ""]],
         "+", true).
Proof. apply (Program_one_plus 5). lia. Defined.

Lemma call_f_9_parsed : Expression 3 "f(9)" = Ret (call_f_9, "", true).
Proof. vm_compute. reflexivity. Qed.

Lemma x_times_2_parsed : Expression 3 "x*2" = Ret (x_times_2, "", true).
Proof. vm_compute. reflexivity. Qed.

(** ** Programs *)

(** C3, as stated, fails: in ["f()=g();g()=1;f()"] the call of [f] is on
    the third line, after both declarations have been registered; it returns
    1 and the run ends normally. *)
Lemma call_after_declarations_returns :
  exists h, parse_exec 6 "f()=g();g()=1;f()" = Ret ([LineValue 1], Ret h).
Proof. eexists. vm_compute. reflexivity. Qed.

(** C3 (amended): running ["f()=g();g()=1;f()"] prints the value 1 for the
    call of [f], because [f] and [g] are both in the function mapping when
    the third line runs.  The call fails only when its line comes before the
    declaration of [g], as in ["f()=g();f();g()=1"]: the run stops there
    with a panic and nothing is printed. *)
Theorem functions_registered_in_line_order (fuel : nat) :
  6 <= fuel ->
  (exists h, parse_exec fuel "f()=g();g()=1;f()" = Ret ([LineValue 1], Ret h))
  /\ parse_exec fuel "f()=g();f();g()=1" = Ret ([], Panic).
Proof.
  intros Hle. split.
  - eexists. apply (parse_exec_fuel 6); [| discriminate | exact Hle].
    vm_compute. reflexivity.
  - apply (parse_exec_fuel 6); [| discriminate | exact Hle].
    vm_compute. reflexivity.
Qed.

Lemma functions_registered_in_line_order_witness :
  (exists h, parse_exec 7 "f()=g();g()=1;f()" = Ret ([LineValue 1], Ret h))
  /\ parse_exec 7 "f()=g();f();g()=1" = Ret ([], Panic).
Proof. apply (functions_registered_in_line_order 7). lia. Defined.

(** C5: precedence and left associativity. *)
Theorem precedence_and_associativity (fuel : nat) :
  8 <= fuel ->
  parse_eval fuel "2+3*4" = Ret (Some 14%float)
  /\ parse_eval fuel "(2+3)*4" = Ret (Some 20%float)
  /\ parse_eval fuel "8-3-2" = Ret (Some 3%float)
  /\ parse_eval fuel "8/4/2" = Ret (Some 1%float).
Proof.
  intros Hle.
  repeat split; (apply (parse_eval_fuel 8); [| exact Hle]);
    vm_compute; reflexivity.
Qed.

Lemma precedence_and_associativity_witness :
  parse_eval 9 "2+3*4" = Ret (Some 14%float)
  /\ parse_eval 9 "(2+3)*4" = Ret (Some 20%float)
  /\ parse_eval 9 "8-3-2" = Ret (Some 3%float)
  /\ parse_eval 9 "8/4/2" = Ret (Some 1%float).
Proof. apply (precedence_and_associativity 9). lia. Defined.

(** Other runs of the same kind. *)
Example declarations_persist :
  exists h,
    parse_exec 8 "x=2;y=x*3;y"
    = Ret ([Assignment "x" 2; Assignment "y" 6; LineValue 6], Ret h).
Proof. eexists. vm_compute. reflexivity. Qed.

Example call_with_parameters :
  exists h, parse_exec 8 "f(a,b)=a+b*2;f(1,2)" = Ret ([LineValue 5], Ret h).
Proof. eexists. vm_compute. reflexivity. Qed.

Example shadowed_variable_restored :
  exists h,
    parse_exec 8 "x=5;f(x)=x*2;f(9);x"
    = Ret ([Assignment "x" 5; LineValue 18; LineValue 5], Ret h).
Proof. eexists. vm_compute. reflexivity. Qed.

Example leftover_text :
  exists node, Expression 8 "1+2 garbage" = Ret (Some node, " garbage", true).
Proof. eexists. vm_compute. reflexivity. Qed.

(** ** Variables *)

(** C8: a variable that is not in the variable mapping evaluates to 0; the
    evaluation returns, and the store is as it was. *)
Theorem undefined_variable_is_zero (fuel : nat) (memory : Memory) (h : Heap)
    (name : string) (children : list (option Node)) :
  (forall vars, vmaps h !! Variables memory = Some vars -> vars !! name = None) ->
  Eval (S fuel) (Some (mkNode "Variable" children name)) memory h
  = Ret (0%float, h).
Proof.
  intros Hmiss. simpl. unfold read_var.
  destruct (vmaps h !! Variables memory) as [vars |] eqn:E; simpl;
    [rewrite (Hmiss vars eq_refl) |]; reflexivity.
Qed.

Lemma undefined_variable_is_zero_witness :
  Eval 1 (leaf "Variable" "y") (mkMemory (Some 0) (Some 0))
    (mkHeap [{["x" := 5%float]}] [∅])
  = Ret (0%float, mkHeap [{["x" := 5%float]}] [∅]).
Proof.
  apply (undefined_variable_is_zero 0 (mkMemory (Some 0) (Some 0))
           (mkHeap [{["x" := 5%float]}] [∅]) "y" []).
  intros vars H. inversion H. reflexivity.
Defined.

(** ** Division by zero *)

Lemma non_finite_spec x : non_finite x = sf_non_finite (Prim2SF x).
Proof.
  unfold non_finite, is_infinity, is_nan.
  rewrite !FloatAxioms.eqb_spec, abs_spec.
  change (Prim2SF PrimFloat.infinity) with (S754_infinity false).
  destruct (Prim2SF x) as [s | s | | s m e];
    try reflexivity; try (destruct s; reflexivity).
  unfold SFeqb, SFabs, SFcompare.
  destruct s; rewrite Z.compare_refl, Pos.compare_cont_refl; reflexivity.
Qed.

Lemma is_zero_spec z : is_zero z = true -> exists s, Prim2SF z = S754_zero s.
Proof.
  unfold is_zero. rewrite FloatAxioms.eqb_spec.
  change (Prim2SF PrimFloat.zero) with (S754_zero false).
  destruct (Prim2SF z) as [s | s | | s m e];
    try discriminate; try (destruct s; discriminate); eauto.
Qed.

(** Whatever is divided by a zero is an infinity or not a number. *)
Lemma div_by_zero_non_finite a z :
  is_zero z = true -> non_finite (a / z) = true.
Proof.
  intros Hz. destruct (is_zero_spec z Hz) as [s Es].
  rewrite non_finite_spec, div_spec, Es.
  destruct (Prim2SF a); reflexivity.
Qed.

(** An infinity or a NaN on the left of [*] or [/] stays one. *)
Lemma mul_non_finite x v : non_finite x = true -> non_finite (x * v) = true.
Proof.
  rewrite !non_finite_spec, mul_spec.
  destruct (Prim2SF x); try discriminate; intros _;
    destruct (Prim2SF v); reflexivity.
Qed.

Lemma div_non_finite x v : non_finite x = true -> non_finite (x / v) = true.
Proof.
  rewrite !non_finite_spec, div_spec.
  destruct (Prim2SF x); try discriminate; intros _;
    destruct (Prim2SF v); reflexivity.
Qed.

Section FoldTerms.
Variable ev : option Node -> Memory -> Heap -> Res (float * Heap).
Variable memory : Memory.

Lemma fold_terms_app tag op1 op2 before after number h :
  fold_terms ev memory tag op1 op2 (before ++ after) number h
  = '(number', h') ← fold_terms ev memory tag op1 op2 before number h;
    fold_terms ev memory tag op1 op2 after number' h'.
Proof.
  revert number h.
  induction before as [| term before IH]; intros number h; simpl;
    [reflexivity |].
  destruct (deref term) as [t | | |]; simpl; try reflexivity.
  destruct (child t 0) as [o | | |]; simpl; try reflexivity.
  destruct (deref o) as [operator | | |]; simpl; try reflexivity.
  destruct (String.eqb (Typ operator) tag);
    (destruct (child t 1) as [operand | | |]; simpl; try reflexivity);
    (destruct (ev operand memory h) as [[value h1] | | |]; simpl;
       try reflexivity);
    apply IH.
Qed.

Lemma fold_terms_non_finite terms number h r h' :
  fold_terms ev memory "OpMult" PrimFloat.mul PrimFloat.div terms number h
  = Ret (r, h') ->
  non_finite number = true -> non_finite r = true.
Proof.
  revert number h.
  induction terms as [| term terms IH]; intros number h; simpl.
  - intros H; inversion H; subst; auto.
  - destruct (deref term) as [t | | |]; simpl; try discriminate.
    destruct (child t 0) as [o | | |]; simpl; try discriminate.
    destruct (deref o) as [operator | | |]; simpl; try discriminate.
    destruct (String.eqb (Typ operator) "OpMult");
      (destruct (child t 1) as [operand | | |]; simpl; try discriminate);
      (destruct (ev operand memory h) as [[value h1] | | |]; simpl;
         try discriminate);
      intros H Hn; apply IH in H; auto using mul_non_finite, div_non_finite.
Qed.
End FoldTerms.

(** C7: in a [Multiplication] chain, a term whose operator is not ["OpMult"]
    and whose operand evaluates to a zero is a plain binary64 division: the
    evaluation goes on and returns, the running product becomes an infinity
    or a NaN, and so is the result of the whole chain. *)
Theorem division_by_zero_propagates (fuel : nat) (memory : Memory)
    (node terms term operator : Node) (first divisor : option Node)
    (before after : list (option Node))
    (h h1 h2 h3 h4 : Heap) (a b z r : float) :
  Typ node = "Multiplication" ->
  Children node = [first; Some terms] ->
  Children terms = (before ++ Some term :: after)%list ->
  Children term = [Some operator; divisor] ->
  Typ operator <> "OpMult" ->
  Eval fuel first memory h = Ret (a, h1) ->
  fold_terms (Eval fuel) memory "OpMult" PrimFloat.mul PrimFloat.div
    before a h1 = Ret (b, h2) ->
  Eval fuel divisor memory h2 = Ret (z, h3) ->
  is_zero z = true ->
  fold_terms (Eval fuel) memory "OpMult" PrimFloat.mul PrimFloat.div
    after (b / z)%float h3 = Ret (r, h4) ->
  Eval (S fuel) (Some node) memory h = Ret (r, h4)
  /\ non_finite (b / z) = true
  /\ non_finite r = true.
Proof.
  intros Htyp Hnode Hterms Hterm Hop Hfirst Hbefore Hdiv Hzero Hafter.
  assert (Hnf : non_finite (b / z) = true)
    by (apply div_by_zero_non_finite, Hzero).
  split; [| split; [exact Hnf |]].
  - simpl. rewrite Htyp. simpl. unfold child. rewrite Hnode. simpl.
    rewrite Hfirst. simpl. rewrite Hterms, fold_terms_app, Hbefore. simpl.
    unfold child. rewrite Hterm. simpl.
    apply String.eqb_neq in Hop. rewrite Hop, Hdiv. simpl. exact Hafter.
  - eapply fold_terms_non_finite; eassumption.
Qed.

Lemma chain_parsed :
  Expression 8 "3*1/0*2" = Ret (tree "Expression" [Some chain], "", true).
Proof. vm_compute. reflexivity. Qed.

Lemma division_by_zero_propagates_witness :
  Eval 2 (Some chain) (mkMemory (Some 0) (Some 0)) empty_heap
  = Ret (PrimFloat.infinity, empty_heap)
  /\ non_finite (3 / 0) = true
  /\ non_finite PrimFloat.infinity = true.
Proof.
  apply (division_by_zero_propagates 1 (mkMemory (Some 0) (Some 0))
           chain chain_terms div_term div_operator
           (leaf "Number" "3") (leaf "Number" "0")
           [mul_term "1"] [mul_term "2"]
           empty_heap empty_heap empty_heap empty_heap empty_heap
           3%float 3%float 0%float PrimFloat.infinity);
    try (vm_compute; reflexivity).
  discriminate.
Defined.

Example division_by_zero_values :
  parse_eval 8 "1/0" = Ret (Some PrimFloat.infinity)
  /\ parse_eval 8 "-1/0" = Ret (Some PrimFloat.neg_infinity)
  /\ parse_eval 8 "0/0" = Ret (Some PrimFloat.nan)
  /\ parse_eval 8 "1/0*0" = Ret (Some PrimFloat.nan).
Proof. repeat split; vm_compute; reflexivity. Qed.

(** ** The store across a call *)

Lemma heap_extends_refl h : heap_extends h h.
Proof. split; reflexivity. Qed.

Lemma heap_extends_trans h1 h2 h3 :
  heap_extends h1 h2 -> heap_extends h2 h3 -> heap_extends h1 h3.
Proof.
  intros [P12 F12] [P23 F23]. split; [etrans; eassumption | congruence].
Qed.

Lemma heap_extends_lookup h h' (l : nat) vars :
  heap_extends h h' -> vmaps h !! l = Some vars -> vmaps h' !! l = Some vars.
Proof. intros [P _] H. eapply prefix_lookup_Some; eassumption. Qed.

Lemma heap_extends_reference h h' (r : option nat) vars :
  heap_extends h h' -> vmaps h !! r = Some vars -> vmaps h' !! r = Some vars.
Proof. destruct r as [l |]; [apply heap_extends_lookup | discriminate]. Qed.

Lemma make_vars_extends h : heap_extends h (snd (make_vars h)).
Proof. split; simpl; [apply prefix_app_r; reflexivity | reflexivity]. Qed.

#[local] Arguments store_var : simpl never.
#[local] Arguments store_fun : simpl never.

(** A write at a location allocated later leaves the earlier store alone. *)
Lemma store_var_extends h0 l name value h h' :
  heap_extends h0 h -> length (vmaps h0) <= l ->
  store_var (Some l) name value h = Ret h' -> heap_extends h0 h'.
Proof.
  intros [[k Hk] F] Hl. unfold store_var.
  destruct (vmaps h !! l) as [m |]; [| discriminate].
  intros H; inversion H; subst h'; clear H. split; simpl; [| exact F].
  rewrite Hk, insert_app_r_alt by exact Hl. eexists; reflexivity.
Qed.

Lemma copy_variables_extends h0 l entries h h' :
  heap_extends h0 h -> length (vmaps h0) <= l ->
  copy_variables (Some l) entries h = Ret h' -> heap_extends h0 h'.
Proof.
  intros Hext Hl. revert h Hext.
  induction entries as [| [name value] entries IH]; intros h Hext; simpl.
  - intros H; inversion H; subst; exact Hext.
  - destruct (store_var (Some l) name value h) as [h1 | | |] eqn:E; simpl;
      try discriminate.
    apply IH. eapply store_var_extends; eassumption.
Qed.

Lemma bind_arguments_extends h0 l parameters i arguments h h' :
  heap_extends h0 h -> length (vmaps h0) <= l ->
  bind_arguments (Some l) parameters i arguments h = Ret h' ->
  heap_extends h0 h'.
Proof.
  intros Hext Hl. revert i h Hext.
  induction arguments as [| argument arguments IH]; intros i h Hext; simpl.
  - intros H; inversion H; subst; exact Hext.
  - destruct (parameters !! i) as [parameter |]; simpl.
    + destruct (store_var (Some l) parameter argument h) as [h1 | | |] eqn:E;
        simpl;
        try discriminate.
      apply IH. eapply store_var_extends; eassumption.
    + apply IH, Hext.
Qed.

Section LoopsFrame.
Variable ev : option Node -> Memory -> Heap -> Res (float * Heap).
Variable memory : Memory.
Hypothesis Hev : frames ev.

Lemma fold_terms_extends tag op1 op2 terms number h r h' :
  fold_terms ev memory tag op1 op2 terms number h = Ret (r, h') ->
  heap_extends h h'.
Proof.
  revert number h.
  induction terms as [| term terms IH]; intros number h; simpl.
  - intros H; inversion H; subst; apply heap_extends_refl.
  - destruct (deref term) as [t | | |]; simpl; try discriminate.
    destruct (child t 0) as [o | | |]; simpl; try discriminate.
    destruct (deref o) as [operator | | |]; simpl; try discriminate.
    destruct (String.eqb (Typ operator) tag);
      (destruct (child t 1) as [operand | | |]; simpl; try discriminate);
      (destruct (ev operand memory h) as [[value h1] | | |] eqn:E; simpl;
         try discriminate);
      intros H; apply IH in H; apply Hev in E;
      eapply heap_extends_trans; eassumption.
Qed.

Lemma eval_arguments_extends nodes arguments h arguments' h' :
  eval_arguments ev memory nodes arguments h = Ret (arguments', h') ->
  heap_extends h h'.
Proof.
  revert arguments h.
  induction nodes as [| node nodes IH]; intros arguments h; simpl.
  - intros H; inversion H; subst; apply heap_extends_refl.
  - destruct (deref node) as [argument | | |]; simpl; try discriminate.
    destruct (child argument 0) as [expression | | |]; simpl;
      try discriminate.
    destruct (ev expression memory h) as [[value h1] | | |] eqn:E; simpl;
      try discriminate.
    intros H; apply IH in H; apply Hev in E.
    eapply heap_extends_trans; eassumption.
Qed.
End LoopsFrame.

(** [Eval] only adds maps to the store. *)
Lemma Eval_frames fuel : frames (Eval fuel).
Proof.
  induction fuel as [| fuel IH]; intros node memory h value h'; simpl;
    [discriminate |].
  destruct (deref node) as [n | | |]; simpl; try discriminate.
  repeat match goal with
         | |- (if ?b then _ else _) = _ -> _ => destruct b
         end.
  - destruct (child n 0) as [c0 | | |]; simpl; try discriminate. apply IH.
  - destruct (child n 0) as [c0 | | |]; simpl; try discriminate.
    destruct (Eval fuel c0 memory h) as [[number h1] | | |] eqn:E0; simpl;
      try discriminate.
    destruct (child n 1) as [c1 | | |]; simpl; try discriminate.
    destruct (deref c1) as [terms | | |]; simpl; try discriminate.
    intros H. apply fold_terms_extends in H; [| exact IH]. apply IH in E0.
    eapply heap_extends_trans; eassumption.
  - destruct (child n 0) as [c0 | | |]; simpl; try discriminate.
    destruct (Eval fuel c0 memory h) as [[number h1] | | |] eqn:E0; simpl;
      try discriminate.
    destruct (child n 1) as [c1 | | |]; simpl; try discriminate.
    destruct (deref c1) as [terms | | |]; simpl; try discriminate.
    intros H. apply fold_terms_extends in H; [| exact IH]. apply IH in E0.
    eapply heap_extends_trans; eassumption.
  - destruct (child n 1) as [c1 | | |]; simpl; try discriminate. apply IH.
  - destruct (ParseFloat (Value n)); [| discriminate].
    intros H; inversion H; subst; apply heap_extends_refl.
  - intros H; inversion H; subst; apply heap_extends_refl.
  - destruct (child n 0) as [c0 | | |]; simpl; try discriminate.
    destruct (deref c0) as [name | | |]; simpl; try discriminate.
    destruct (child n 2) as [c2 | | |]; simpl; try discriminate.
    destruct (deref c2) as [args | | |]; simpl; try discriminate.
    destruct (eval_arguments (Eval fuel) memory (Children args) [] h)
      as [[arguments h1] | | |] eqn:Eargs; simpl; try discriminate.
    apply eval_arguments_extends in Eargs; [| exact IH].
    pose proof (make_vars_extends h1) as Hmk. simpl in Hmk.
    match goal with
    | |- context [copy_variables ?l ?entries ?h2] =>
        destruct (copy_variables l entries h2) as [h3 | | |] eqn:Ecopy
    end; simpl; try discriminate.
    apply (copy_variables_extends h1) in Ecopy; [| exact Hmk | lia].
    match goal with
    | |- context [bind_arguments ?l ?ps 0 arguments h3] =>
        destruct (bind_arguments l ps 0 arguments h3) as [h4 | | |] eqn:Ebind
    end; simpl; try discriminate.
    apply (bind_arguments_extends h1) in Ebind; [| exact Ecopy | lia].
    intros H. apply IH in H.
    eauto using heap_extends_trans.
  - intros H; inversion H; subst; apply heap_extends_refl.
Qed.

(** The copy loop rebuilds the map it ranges over. *)
Lemma foldl_put_lookup (entries : list (string * float)) :
  NoDup entries.*1 ->
  forall (m0 : gmap string float) k,
    foldl put m0 entries !! k
    = match (list_to_map entries : gmap string float) !! k with
      | Some v => Some v
      | None => m0 !! k
      end.
Proof.
  induction entries as [| [k1 v1] entries IH]; intros Hnd m0 k; simpl.
  - rewrite lookup_empty. reflexivity.
  - inversion Hnd as [| ? ? Hnotin Hnd']; subst.
    rewrite (IH Hnd'). unfold put at 1. simpl.
    destruct (decide (k1 = k)) as [-> | Hne].
    + rewrite (not_elem_of_list_to_map_1 entries k) by exact Hnotin.
      rewrite !lookup_insert_eq. reflexivity.
    + rewrite !lookup_insert_ne by exact Hne. reflexivity.
Qed.

Lemma foldl_put_map_to_list (vars : gmap string float) :
  foldl put ∅ (map_to_list vars) = vars.
Proof.
  apply map_eq. intros k.
  rewrite foldl_put_lookup by apply NoDup_fst_map_to_list.
  rewrite list_to_map_to_list, lookup_empty.
  destruct (vars !! k); reflexivity.
Qed.

Lemma store_var_last vs fs m0 name value :
  store_var (Some (length vs)) name value (mkHeap (vs ++ [m0]) fs)
  = Ret (mkHeap (vs ++ [<[name := value]> m0]) fs).
Proof.
  unfold store_var. simpl.
  rewrite list_lookup_middle by reflexivity.
  rewrite insert_app_r_alt, Nat.sub_diag by lia. reflexivity.
Qed.

Lemma copy_variables_last vs fs entries m0 :
  copy_variables (Some (length vs)) entries (mkHeap (vs ++ [m0]) fs)
  = Ret (mkHeap (vs ++ [foldl put m0 entries]) fs).
Proof.
  revert m0. induction entries as [| [name value] entries IH]; intros m0;
    simpl; [reflexivity |].
  rewrite store_var_last. simpl. apply IH.
Qed.

#[local] Arguments read_var : simpl never.
#[local] Arguments read_fun : simpl never.
#[local] Arguments range_vars : simpl never.
#[local] Arguments copy_variables : simpl never.
#[local] Arguments PrimFloat.mul : simpl never.

Lemma Eval_x_times_2 fuel memory h :
  Eval (3 + fuel) x_times_2 memory h
  = Ret ((read_var h (Variables memory) "x" * 2)%float, h).
Proof. simpl. reflexivity. Qed.

Lemma read_fun_lookup h l funs name f :
  fmaps h !! l = Some funs -> funs !! name = Some f -> read_fun h l name = f.
Proof. intros H1 H2. unfold read_fun. rewrite H1. simpl. rewrite H2. reflexivity. Qed.

Lemma read_var_lookup h l vars name v :
  vmaps h !! l = Some vars -> vars !! name = Some v -> read_var h l name = v.
Proof. intros H1 H2. unfold read_var. rewrite H1. simpl. rewrite H2. reflexivity. Qed.

Lemma reference_Some {A : Type} (maps : list A) (l : nat) :
  maps !! Some l = maps !! l.
Proof. reflexivity. Qed.

Lemma reference_None {A : Type} (maps : list A) :
  maps !! (None : option nat) = None.
Proof. reflexivity. Qed.

(** A map that a reference points to is behind it after an allocation. *)
Lemma reference_app {A : Type} (maps more : list A) (r : option nat) m :
  maps !! r = Some m -> (maps ++ more)%list !! r = Some m.
Proof. destruct r as [l |]; [apply lookup_app_l_Some | discriminate]. Qed.

(** C4: a call of [f(x) = x*2] with the argument 9, made where [x] is 5:
    the call returns 18; the body ran in a scope whose [x] is 9, a map
    allocated by the call; the caller's mapping is the same map with the same
    entries afterwards, so its [x] is still 5.  And no evaluation changes a
    map that was in the store before it started: what a callee writes goes
    to the copy. *)
Theorem call_copies_variables (fuel : nat) (memory : Memory) (h : Heap)
    (vars : gmap string float) (funs : gmap string MemoryFunction) :
  vmaps h !! Variables memory = Some vars ->
  vars !! "x" = Some 5%float ->
  fmaps h !! Functions memory = Some funs ->
  funs !! "f" = Some (mkMemoryFunction ["x"] x_times_2) ->
  let scope := mkMemory (Some (length (vmaps h))) (Functions memory) in
  let h' := mkHeap (vmaps h ++ [<["x" := 9%float]> vars]) (fmaps h) in
  Eval (5 + fuel) call_f_9 memory h = Ret (18%float, h')
  /\ read_var h' (Variables scope) "x" = 9%float
  /\ Eval (3 + fuel) x_times_2 scope h' = Ret (18%float, h')
  /\ vmaps h' !! Variables memory = Some vars
  /\ read_var h' (Variables memory) "x" = 5%float
  /\ (forall fuel0 node memory0 h0 value h1 l vars0,
        Eval fuel0 node memory0 h0 = Ret (value, h1) ->
        vmaps h0 !! l = Some vars0 -> vmaps h1 !! l = Some vars0).
Proof.
  intros Hvars Hx Hfuns Hf scope h'.
  assert (Hscope : read_var h' (Variables scope) "x" = 9%float).
  { apply (read_var_lookup _ _ (<["x" := 9%float]> vars)).
    - simpl. apply list_lookup_middle. reflexivity.
    - apply lookup_insert_eq. }
  assert (Hbody : Eval (3 + fuel) x_times_2 scope h' = Ret (18%float, h')).
  { rewrite Eval_x_times_2, Hscope. reflexivity. }
  assert (Hkeep : vmaps h' !! Variables memory = Some vars).
  { simpl. apply reference_app, Hvars. }
  split; [| repeat split; try assumption].
  - change (5 + fuel) with (S (S (3 + fuel))).
    remember (3 + fuel) as n eqn:En.
    simpl. rewrite (read_fun_lookup _ _ _ _ _ Hfuns Hf).
    rewrite En at 1. simpl.
    change (float_of_Z false (10 * 0 + digit_value "9")) with 9%float.
    unfold range_vars. simpl. rewrite (reference_app _ _ _ _ Hvars).
    destruct h as [vs fs]. simpl in *.
    rewrite copy_variables_last, foldl_put_map_to_list. simpl.
    rewrite store_var_last. simpl.
    subst n. exact Hbody.
  - apply (read_var_lookup _ _ vars); assumption.
  - intros fuel0 node memory0 h0 value h1 l vars0 Hrun Hl.
    apply Eval_frames in Hrun. eapply heap_extends_lookup; eassumption.
Qed.

Lemma call_copies_variables_witness :
  let memory := mkMemory (Some 0) (Some 0) in
  let scope := mkMemory (Some 1) (Some 0) in
  let h' :=
    mkHeap [{["x" := 5%float]}; <["x" := 9%float]> {["x" := 5%float]}]
      (fmaps heap_x_5) in
  Eval 5 call_f_9 memory heap_x_5 = Ret (18%float, h')
  /\ read_var h' (Variables scope) "x" = 9%float
  /\ Eval 3 x_times_2 scope h' = Ret (18%float, h')
  /\ vmaps h' !! Variables memory = Some {["x" := 5%float]}
  /\ read_var h' (Variables memory) "x" = 5%float
  /\ (forall fuel0 node memory0 h0 value h1 l vars0,
        Eval fuel0 node memory0 h0 = Ret (value, h1) ->
        vmaps h0 !! l = Some vars0 -> vmaps h1 !! l = Some vars0).
Proof.
  apply (call_copies_variables 0 (mkMemory (Some 0) (Some 0)) heap_x_5
           {["x" := 5%float]}
           {["f" := mkMemoryFunction ["x"] x_times_2]});
    reflexivity.
Defined.

(** In the grammar, every rule but [Expression] (an [As]) fails with nil. *)
Example rules_fail_with_nil fuel :
  nil_failing (Sum fuel) /\ nil_failing (Multiplication fuel)
  /\ nil_failing (Unit fuel) /\ nil_failing (FunctionCall fuel)
  /\ nil_failing (Declaration fuel) /\ nil_failing (Program fuel).
Proof. repeat split; constructor. Qed.

Example Expression_fails_with_a_node :
  Expression 3 "+" = Ret (tree "Expression" [None], "", false).
Proof. vm_compute. reflexivity. Qed.

(** * Further properties of the engine *)

(** ** Slices *)

Lemma substring_all s : substring 0 (String.length s) s = s.
Proof. induction s as [| c s IH]; simpl; [| rewrite IH]; reflexivity. Qed.

Lemma substring_none s : substring 0 0 s = "".
Proof. destruct s; reflexivity. Qed.

Lemma slice_split s n :
  n <= String.length s -> slice 0 n s ++ slice_from n s = s.
Proof.
  unfold slice, slice_from. rewrite Nat.sub_0_r. revert n.
  induction s as [| c s IH]; intros n Hn; simpl in *.
  - destruct n; [reflexivity | lia].
  - destruct n as [| n]; simpl.
    + rewrite substring_all. reflexivity.
    + change (String c (substring 0 n s ++ substring n (String.length s - n) s)
              = String c s).
      rewrite IH by lia. reflexivity.
Qed.

Lemma slice_length s n :
  n <= String.length s -> String.length (slice 0 n s) = n.
Proof.
  unfold slice. rewrite Nat.sub_0_r. revert n.
  induction s as [| c s IH]; intros n Hn; simpl in *.
  - destruct n; [reflexivity | lia].
  - destruct n as [| n]; simpl; [reflexivity |]. rewrite IH by lia.
    reflexivity.
Qed.

Lemma append_length (a b : string) :
  String.length (a ++ b) = String.length a + String.length b.
Proof.
  induction a as [| c a IH]; [reflexivity |].
  change (S (String.length (a ++ b)) = S (String.length a + String.length b)).
  rewrite IH. reflexivity.
Qed.

Lemma append_assoc (a b c : string) : (a ++ b) ++ c = a ++ (b ++ c).
Proof.
  induction a as [| x a IH]; [reflexivity |].
  change (String x ((a ++ b) ++ c) = String x (a ++ (b ++ c))).
  rewrite IH. reflexivity.
Qed.

Lemma suffix_of_refl s : suffix_of s s.
Proof. exists "". reflexivity. Qed.

Lemma suffix_of_trans a b c : suffix_of a b -> suffix_of b c -> suffix_of a c.
Proof.
  intros [p ->] [q ->]. exists (q ++ p). symmetry. apply append_assoc.
Qed.

Lemma suffix_of_length r s : suffix_of r s -> String.length r <= String.length s.
Proof. intros [p ->]. rewrite append_length. lia. Qed.

(** ** Patterns *)

(** A match never runs past the end of the text. *)
Lemma matchHere_bound re s n : matchHere re s = Some n -> n <= String.length s.
Proof.
  revert s n. induction re as [| [c q] re IH]; intros s n; simpl.
  - intros H; inversion H; lia.
  - assert (Hone : forall (k : string -> option nat),
               (forall s n, k s = Some n -> n <= String.length s) ->
               forall s n,
                 match s with
                 | String x xs => if c x then S <$> k xs else None
                 | EmptyString => None
                 end = Some n -> n <= String.length s).
    { intros k Hk [| x xs] m; [discriminate |].
      destruct (c x); [| discriminate].
      destruct (k xs) as [j |] eqn:E; simpl; [| discriminate].
      intros H; inversion H; subst. apply Hk in E. simpl. lia. }
    assert (Hstar : forall s n,
               (fix star (s : string) : option nat :=
                  match s with
                  | String x xs =>
                      if c x then
                        match star xs with
                        | Some n => Some (S n)
                        | None => matchHere re s
                        end
                      else matchHere re s
                  | EmptyString => matchHere re s
                  end) s = Some n -> n <= String.length s).
    { intros t. induction t as [| x xs IHt]; intros m.
      - apply IH.
      - destruct (c x); [| apply IH].
        match goal with
        | |- context [match ?f xs with _ => _ end] =>
            destruct (f xs) as [j |] eqn:E
        end; [| apply IH].
        intros H; inversion H; subst. specialize (IHt j eq_refl). simpl. lia. }
    destruct q.
    + apply Hone, IH.
    + match goal with
      | |- match ?o with _ => _ end = _ -> _ => destruct o as [j |] eqn:E
      end; [| apply IH].
      intros H; inversion H; subst. revert E. apply Hone, IH.
    + apply Hstar.
    + apply Hone, Hstar.
Qed.

(** The scan finds a match at position 0 exactly when the pattern matches
    there. *)
Lemma FindStringIndex_anchored re s :
  match FindStringIndex re s with
  | Some (0, i1) => matchHere re s = Some i1
  | Some (S _, _) => matchHere re s = None
  | None => matchHere re s = None
  end.
Proof.
  destruct s as [| x xs]; simpl.
  - destruct (matchHere re "") as [n |]; reflexivity.
  - destruct (matchHere re (String x xs)) as [n |]; [reflexivity |].
    destruct (FindStringIndex re xs) as [[a b] |]; reflexivity.
Qed.

(** What an anchored pattern returns, by what the pattern matches at the
    start of the input. *)
Lemma Regex_match (outType : string) (regex : Regexp) (input : string) :
  match matchHere regex input with
  | Some n =>
      Regex outType regex input
      = Ret (leaf outType (slice 0 n input), slice_from n input, true)
      /\ slice 0 n input ++ slice_from n input = input
      /\ String.length (slice 0 n input) = n
  | None => Regex outType regex input = Ret failure
  end.
Proof.
  unfold Regex. pose proof (FindStringIndex_anchored regex input) as H.
  destruct (FindStringIndex regex input) as [[[| a] b] |].
  - rewrite H. pose proof (matchHere_bound _ _ _ H) as Hb.
    split; [reflexivity | split; [apply slice_split | apply slice_length]];
      exact Hb.
  - rewrite H. reflexivity.
  - rewrite H. reflexivity.
Qed.

(** X1: an anchored pattern succeeds exactly when the pattern matches at the
    start of the input; the leaf then carries the matched text, and the
    matched text followed by the remainder is the input. *)
Theorem Regex_anchored (outType : string) (regex : Regexp) (input : string) :
  match matchHere regex input with
  | Some n =>
      Regex outType regex input
      = Ret (leaf outType (slice 0 n input), slice_from n input, true)
      /\ slice 0 n input ++ slice_from n input = input
      /\ String.length (slice 0 n input) = n
  | None => Regex outType regex input = Ret failure
  end.
Proof. exact (Regex_match outType regex input). Qed.

(** A starred class matches the longest run of bytes of the class. *)
Lemma matchHere_star c s :
  matchHere [(c, Star)] s = Some (String.length (take_class c s)).
Proof.
  simpl. induction s as [| x xs IH]; [reflexivity |].
  simpl. destruct (c x); [| reflexivity]. rewrite IH. reflexivity.
Qed.

Lemma take_drop_class c s : take_class c s ++ drop_class c s = s.
Proof.
  induction s as [| x xs IH]; [reflexivity |]. simpl.
  destruct (c x); [| reflexivity].
  change (String x (take_class c xs ++ drop_class c xs) = String x xs).
  rewrite IH. reflexivity.
Qed.

Lemma slice_take_class c s :
  slice 0 (String.length (take_class c s)) s = take_class c s.
Proof.
  unfold slice. rewrite Nat.sub_0_r.
  induction s as [| x xs IH]; [reflexivity |]. simpl.
  destruct (c x); simpl; [rewrite IH |]; reflexivity.
Qed.

Lemma slice_from_take_class c s :
  slice_from (String.length (take_class c s)) s = drop_class c s.
Proof.
  unfold slice_from.
  induction s as [| x xs IH]; [reflexivity |]. simpl.
  destruct (c x); simpl; [exact IH |].
  rewrite substring_all. reflexivity.
Qed.

Lemma matchHere_opt c s :
  matchHere [(c, Opt)] s
  = Some (match s with
          | String x _ => if c x then 1 else 0
          | EmptyString => 0
          end).
Proof. destruct s as [| x xs]; simpl; [| destruct (c x)]; reflexivity. Qed.

Lemma Regex_star outType c input :
  Regex outType [(c, Star)] input
  = Ret (leaf outType (take_class c input), drop_class c input, true).
Proof.
  pose proof (Regex_match outType [(c, Star)] input) as H.
  rewrite matchHere_star in H. destruct H as [H _].
  rewrite H, slice_take_class, slice_from_take_class. reflexivity.
Qed.

(** X2: the skip parsers never fail.  [WS] takes the longest run of blanks,
    [LineDelim] the longest run of newlines and semicolons, and
    [ArguementDelimeter] one comma when there is one; each returns what
    follows, and what it took followed by the remainder is the input. *)
Theorem skip_parsers_never_fail (input : string) :
  WS input
  = Ret (leaf Whitespace (take_class (is_byte " ") input),
         drop_class (is_byte " ") input, true)
  /\ LineDelim input
     = Ret (leaf Whitespace (take_class is_line_delim input),
            drop_class is_line_delim input, true)
  /\ ArguementDelimeter input
     = match input with
       | String "," rest => Ret (leaf "ArgumentDelimeter" ",", rest, true)
       | _ => Ret (leaf "ArgumentDelimeter" "", input, true)
       end
  /\ take_class (is_byte " ") input ++ drop_class (is_byte " ") input = input
  /\ take_class is_line_delim input ++ drop_class is_line_delim input = input.
Proof.
  split; [apply Regex_star |]. split; [apply Regex_star |].
  split; [| split; apply take_drop_class].
  pose proof (Regex_match "ArgumentDelimeter" [(is_byte ",", Opt)] input)
    as H.
  change (Regex "ArgumentDelimeter" [(is_byte ",", Opt)]) with
    ArguementDelimeter in H.
  rewrite matchHere_opt in H. destruct H as [H _]. rewrite H.
  destruct input as [| x xs]; [reflexivity |].
  destruct (is_byte "," x) eqn:E.
  - apply Ascii.eqb_eq in E. subst x.
    unfold slice_from, slice. simpl.
    rewrite Nat.sub_0_r, substring_all, substring_none. reflexivity.
  - unfold slice_from, slice. simpl. rewrite substring_all.
    destruct x as [[] [] [] [] [] [] [] []]; try reflexivity.
    discriminate E.
Qed.

(** ** Repetition over a parser that does not return *)

(** The repetition of the blanks parser does not return, whatever the input
    and however much fuel it is given: every turn of its loop succeeds. *)
Lemma Some_loop_WS_no_fuel fuel outType children input :
  Some_loop fuel outType WS children input = NoFuel.
Proof.
  revert children input.
  induction fuel as [| fuel IH]; intros children input; [reflexivity |].
  unfold WS in *. cbn [Some_loop]. rewrite Regex_star. simpl. apply IH.
Qed.

(** C10, as stated, fails: that every success of the sub-parser consumes
    input is not enough.  [Some("Blanks", WS)] never returns (C6), so it has
    no success at all and each of them consumes; a repetition of it calls it
    on its first turn and never returns either. *)
Lemma consuming_parser_may_loop :
  ~ (forall (outType : string) (minimum : Z) (p : Parser) (input : string),
       (forall s n r,
           p s = Ret (n, r, true) -> String.length r < String.length s) ->
       exists fuel,
         terminates (Some_ fuel outType p input)
         /\ terminates (AtLeast fuel outType minimum p input)).
Proof.
  intros H.
  assert (Hloop : forall s, Some_ 7 "Blanks" WS s = NoFuel)
    by (intros s; apply Some_loop_WS_no_fuel).
  destruct (H "T" 0%Z (Some_ 7 "Blanks" WS) "") as (fuel & Hsome & _).
  - intros s n r Hrun. rewrite Hloop in Hrun. discriminate.
  - apply Hsome. revert Hloop. generalize (Some_ 7 "Blanks" WS).
    intros p Hloop. destruct fuel as [| fuel]; [reflexivity |].
    unfold Some_. cbn [Some_loop]. rewrite Hloop. reflexivity.
Qed.

(** ** Ordered choice and sequences *)

(** X3: an ordered choice succeeds with the result of the first alternative
    that succeeds, all the alternatives before it having failed on the same
    input; it fails when every alternative has failed. *)
Theorem Or_first_success (ps : list Parser) (input : string)
    (n : option Node) (r : string) :
  (Or ps input = Ret (n, r, true)
   <-> exists before p after,
         ps = (before ++ p :: after)%list
         /\ Forall (fun q => exists n' r', q input = Ret (n', r', false)) before
         /\ p input = Ret (n, r, true))
  /\ (Forall (fun q => exists n' r', q input = Ret (n', r', false)) ps ->
      Or ps input = Ret failure).
Proof.
  split; [split |].
  - induction ps as [| q ps IH]; simpl; [discriminate |].
    destruct (q input) as [[[qn qr] []] | | |] eqn:E; simpl; try discriminate.
    + intros H; inversion H; subst.
      exists [], q, ps. repeat split; [constructor | exact E].
    + intros H. destruct (IH H) as (before & p & after & -> & Hb & Hp).
      exists (q :: before), p, after. repeat split; [| exact Hp].
      constructor; [eauto | exact Hb].
  - intros (before & p & after & -> & Hb & Hp).
    induction Hb as [| q before (n' & r' & Hq) _ IH]; simpl.
    + rewrite Hp. reflexivity.
    + rewrite Hq. simpl. exact IH.
  - induction 1 as [| q ps (n' & r' & Hq) _ IH]; simpl; [reflexivity |].
    rewrite Hq. simpl. exact IH.
Qed.

Lemma Then_loop_sequence outType ps acc input n r :
  Then_loop outType ps acc input = Ret (n, r, true)
  <-> exists children,
        n = tree outType (acc ++ children)
        /\ sequence eq ps input children r.
Proof.
  revert acc input. induction ps as [| p ps IH]; intros acc input; simpl.
  - split.
    + intros H; inversion H; subst. exists []. rewrite app_nil_r.
      split; [reflexivity | constructor].
    + intros (children & -> & Hseq). inversion Hseq; subst.
      rewrite app_nil_r. reflexivity.
  - split.
    + destruct (p input) as [[[pn pr] []] | | |] eqn:E; simpl;
        try discriminate.
      intros H. apply IH in H. destruct H as (children & -> & Hseq).
      exists (pn :: children). rewrite <- app_assoc.
      split; [reflexivity |]. econstructor; [reflexivity | exact E | exact Hseq].
    + intros (children & -> & Hseq). inversion Hseq; subst.
      match goal with
      | E : p _ = Ret _ |- _ => rewrite E
      end.
      simpl. apply IH. eexists. rewrite <- app_assoc. split; [reflexivity |].
      assumption.
Qed.

Lemma ThenSkipping_loop_sequence outType skip ps acc input n r :
  ThenSkipping_loop outType skip ps acc input = Ret (n, r, true)
  <-> exists children,
        n = tree outType (acc ++ children)
        /\ sequence (skipped skip) ps input children r.
Proof.
  revert acc input. induction ps as [| p ps IH]; intros acc input; simpl.
  - split.
    + intros H; inversion H; subst. exists []. rewrite app_nil_r.
      split; [reflexivity | constructor].
    + intros (children & -> & Hseq). inversion Hseq; subst.
      rewrite app_nil_r. reflexivity.
  - split.
    + destruct (skip input) as [[[sn sr] sok] | | |] eqn:Es; simpl;
        try discriminate.
      destruct (p _) as [[[pn pr] []] | | |] eqn:E; simpl; try discriminate.
      intros H. apply IH in H. destruct H as (children & -> & Hseq).
      exists (pn :: children). rewrite <- app_assoc.
      split; [reflexivity |].
      econstructor; [| exact E | exact Hseq].
      exists sn, sr, sok. split; [exact Es | reflexivity].
    + intros (children & -> & Hseq). inversion Hseq; subst.
      match goal with
      | Hs : skipped skip _ _ |- _ =>
          destruct Hs as (sn & sr & sok & Es & ->)
      end.
      rewrite Es. simpl.
      match goal with
      | E : p _ = Ret _ |- _ => rewrite E
      end.
      simpl. apply IH. eexists. rewrite <- app_assoc. split; [reflexivity |].
      assumption.
Qed.

Lemma sequence_length start ps input children rest :
  sequence start ps input children rest -> length children = length ps.
Proof. induction 1; simpl; congruence. Qed.

(** X4: a sequence succeeds exactly when its sub-parsers succeed one after
    the other, each from where the one before it stopped ([Then]) or from
    there after the skip parser, whose failure is ignored ([ThenSkipping]).
    The node it returns has the given tag, no literal value, and as children
    the nodes of the sub-parsers in order, one per sub-parser: what the skip
    parser returned is not among them.  The remainder is where the last
    sub-parser stopped. *)
Theorem sequence_children (outType : string) (skip : Parser)
    (ps : list Parser) (input : string) (n : option Node) (r : string) :
  (Then outType ps input = Ret (n, r, true)
   <-> exists children,
         n = tree outType children /\ sequence eq ps input children r)
  /\ (ThenSkipping outType skip ps input = Ret (n, r, true)
      <-> exists children,
            n = tree outType children
            /\ sequence (skipped skip) ps input children r)
  /\ (forall start children,
        sequence start ps input children r ->
        length children = length ps).
Proof.
  split; [apply (Then_loop_sequence outType ps []) |].
  split; [apply (ThenSkipping_loop_sequence outType skip ps []) |].
  intros start children. apply sequence_length.
Qed.

(** ** Repetition with a minimum *)

Lemma wrap64_small z : (- 2 ^ 63 <= z < 2 ^ 63)%Z -> wrap64 z = z.
Proof. intros H. unfold wrap64. rewrite Z.mod_small; lia. Qed.

Lemma AtLeast_loop_Some_loop (p : Parser) outType minimum :
  (forall s, exists res, p s = Ret res) ->
  (forall s n r, p s = Ret (n, r, true) -> String.length r < String.length s) ->
  forall fuel acc rest,
    String.length rest < fuel ->
    (Z.of_nat (length acc + String.length rest) < 2 ^ 63)%Z ->
    exists children r,
      Some_loop fuel outType p acc rest
      = Ret (tree outType (acc ++ children), r, true)
      /\ AtLeast_loop fuel outType minimum p (Z.of_nat (length acc)) acc rest
         = if (minimum <=? Z.of_nat (length (acc ++ children)))%Z
           then Ret (tree outType (acc ++ children), r, true)
           else Ret failure.
Proof.
  intros Hret Hcons fuel.
  induction fuel as [| fuel IH]; intros acc rest Hlen Hbound; [lia |].
  simpl. destruct (Hret rest) as [[[pn pr] ok] E]. rewrite E. simpl.
  destruct ok; simpl.
  - pose proof (Hcons _ _ _ E) as Hshort.
    destruct (IH (acc ++ [pn])%list pr) as (children & r & HS & HA).
    { lia. }
    { rewrite length_app. simpl. lia. }
    exists (pn :: children), r.
    rewrite <- app_assoc in HS, HA. simpl in HS, HA.
    split; [exact HS |].
    rewrite wrap64_small by lia.
    rewrite length_app in HA. simpl in HA.
    rewrite Nat2Z.inj_add in HA. exact HA.
  - exists [], rest. rewrite app_nil_r. split; reflexivity.
Qed.

(** X5: over a sub-parser that returns on every input and consumes on every
    success, [AtLeast] is [Some] with a test at the end: it returns what
    [Some] returns when [Some] collected at least [minimum] children, and
    fails with nil otherwise. *)
Theorem AtLeast_is_Some_with_minimum (outType : string) (minimum : Z)
    (p : Parser) (input : string) (fuel : nat) :
  (forall s, exists res, p s = Ret res) ->
  (forall s n r, p s = Ret (n, r, true) -> String.length r < String.length s) ->
  String.length input < fuel ->
  (Z.of_nat (String.length input) < 2 ^ 63)%Z ->
  exists children rest,
    Some_ fuel outType p input = Ret (tree outType children, rest, true)
    /\ AtLeast fuel outType minimum p input
       = if (minimum <=? Z.of_nat (length children))%Z
         then Ret (tree outType children, rest, true)
         else Ret failure.
Proof.
  intros Hret Hcons Hlen Hbound.
  exact (AtLeast_loop_Some_loop p outType minimum Hret Hcons fuel [] input
           Hlen Hbound).
Qed.

Lemma AtLeast_is_Some_with_minimum_witness :
  exists children rest,
    Some_ 4 "As" (Character "a") "aab" = Ret (tree "As" children, rest, true)
    /\ AtLeast 4 "As" 3 (Character "a") "aab"
       = if (3 <=? Z.of_nat (length children))%Z
         then Ret (tree "As" children, rest, true)
         else Ret failure.
Proof.
  apply (AtLeast_is_Some_with_minimum "As" 3 (Character "a") "aab" 4).
  - apply Character_returns.
  - apply Character_consumes.
  - simpl. lia.
  - simpl. lia.
Defined.

(** ** What success returns *)

(** Induction over the parsers of the engine, through the lists of
    sub-parsers. *)
Lemma engine_nested_ind (P : Parser -> Prop) :
  P Digit ->
  (forall chr, P (Character chr)) ->
  (forall outType regex, P (Regex outType regex)) ->
  (forall fuel outType p, P p -> P (Some_ fuel outType p)) ->
  (forall fuel outType minimum p, P p -> P (AtLeast fuel outType minimum p)) ->
  (forall ps, Forall P ps -> P (Or ps)) ->
  (forall outType ps, Forall P ps -> P (Then outType ps)) ->
  (forall outType skip ps,
      P skip -> Forall P ps -> P (ThenSkipping outType skip ps)) ->
  (forall skip p, P skip -> P p -> P (Skipping skip p)) ->
  (forall outType p, P p -> P (As outType p)) ->
  forall p, engine p -> P p.
Proof.
  intros HDigit HCharacter HRegex HSome HAtLeast HOr HThen HThenSkipping
    HSkipping HAs.
  fix IH 2. intros p H.
  assert (IHs : forall ps, Forall engine ps -> Forall P ps).
  { fix IHps 2. intros ps Hps.
    destruct Hps as [| q qs Hq Hqs]; constructor;
      [apply IH, Hq | apply IHps, Hqs]. }
  destruct H as [| chr | outType regex | fuel outType p H
                | fuel outType minimum p H | ps Hps | outType ps Hps
                | outType skip ps Hskip Hps | skip p Hskip H | outType p H].
  - exact HDigit.
  - apply HCharacter.
  - apply HRegex.
  - apply HSome, IH, H.
  - apply HAtLeast, IH, H.
  - apply HOr, IHs, Hps.
  - apply HThen, IHs, Hps.
  - apply HThenSkipping; [apply IH, Hskip | apply IHs, Hps].
  - apply HSkipping; [apply IH, Hskip | apply IH, H].
  - apply HAs, IH, H.
Qed.

Lemma all_no_nil_snoc acc c :
  all_no_nil acc = true -> no_nil c = true ->
  all_no_nil (acc ++ [Some c]) = true.
Proof.
  intros Hacc Hc. unfold all_no_nil in *. rewrite forallb_app, Hacc. simpl.
  rewrite Hc. reflexivity.
Qed.

Lemma no_nil_tree outType children value :
  no_nil (mkNode outType children value) = all_no_nil children.
Proof. reflexivity. Qed.

Lemma well_behaved_Digit : well_behaved Digit.
Proof.
  intros [| c s] n r; simpl; [discriminate |].
  destruct (is_digit c); intros H; inversion H; subst.
  split; [exists (String c ""); reflexivity | eauto].
Qed.

Lemma well_behaved_Character chr : well_behaved (Character chr).
Proof.
  intros [| c s] n r; simpl; [discriminate |].
  destruct (Ascii.eqb c chr); intros H; inversion H; subst.
  split; [exists (String c ""); reflexivity | eauto].
Qed.

Lemma well_behaved_Regex outType regex : well_behaved (Regex outType regex).
Proof.
  intros input n r. pose proof (Regex_match outType regex input) as H.
  destruct (matchHere regex input) as [m |].
  - destruct H as (-> & Hsplit & _). intros H; inversion H; subst.
    split; [eexists; symmetry; exact Hsplit | eauto].
  - rewrite H. discriminate.
Qed.

Section WellBehaved.
Variable p : Parser.
Hypothesis Hp : well_behaved p.

Lemma Some_loop_well_behaved fuel outType acc rest n r :
  all_no_nil acc = true ->
  Some_loop fuel outType p acc rest = Ret (n, r, true) ->
  suffix_of r rest /\ exists node, n = Some node /\ no_nil node = true.
Proof.
  revert acc rest. induction fuel as [| fuel IH]; intros acc rest Hacc; simpl;
    [discriminate |].
  destruct (p rest) as [[[pn pr] []] | | |] eqn:E; simpl; try discriminate.
  - destruct (Hp _ _ _ E) as (Hsuf & c & -> & Hc). intros H.
    apply IH in H; [| apply all_no_nil_snoc; assumption].
    destruct H as [Hsuf' Hnode].
    split; [eapply suffix_of_trans; eassumption | exact Hnode].
  - intros H; inversion H; subst. split; [apply suffix_of_refl | eauto].
Qed.

Lemma AtLeast_loop_well_behaved fuel outType minimum num acc rest n r :
  all_no_nil acc = true ->
  AtLeast_loop fuel outType minimum p num acc rest = Ret (n, r, true) ->
  suffix_of r rest /\ exists node, n = Some node /\ no_nil node = true.
Proof.
  revert num acc rest.
  induction fuel as [| fuel IH]; intros num acc rest Hacc; simpl;
    [discriminate |].
  destruct (p rest) as [[[pn pr] []] | | |] eqn:E; simpl; try discriminate.
  - destruct (Hp _ _ _ E) as (Hsuf & c & -> & Hc). intros H.
    apply IH in H; [| apply all_no_nil_snoc; assumption].
    destruct H as [Hsuf' Hnode].
    split; [eapply suffix_of_trans; eassumption | exact Hnode].
  - destruct (minimum <=? num)%Z; intros H; inversion H; subst.
    split; [apply suffix_of_refl | eauto].
Qed.

Lemma well_behaved_As outType : well_behaved (As outType p).
Proof.
  intros input n r. unfold As.
  destruct (p input) as [[[pn pr] []] | | |] eqn:E; simpl; try discriminate.
  destruct (Hp _ _ _ E) as (Hsuf & c & -> & Hc).
  intros H; inversion H; subst. split; [exact Hsuf |].
  eexists; split; [reflexivity |]. simpl. rewrite Hc. reflexivity.
Qed.

Lemma well_behaved_Skipping skip :
  well_behaved skip -> well_behaved (Skipping skip p).
Proof.
  intros Hskip input n r. unfold Skipping.
  destruct (skip input) as [[[sn sr] []] | | |] eqn:E; simpl;
    try discriminate; intros H; apply Hp in H; [| exact H].
  destruct H as [Hsuf Hnode]. split; [| exact Hnode].
  eapply suffix_of_trans; [exact Hsuf | apply (Hskip _ _ _ E)].
Qed.
End WellBehaved.

Lemma well_behaved_Or ps : Forall well_behaved ps -> well_behaved (Or ps).
Proof.
  intros Hps input n r.
  induction Hps as [| q ps Hq _ IH]; simpl; [discriminate |].
  destruct (q input) as [[[qn qr] []] | | |] eqn:E; simpl; try discriminate.
  - intros H; inversion H; subst. apply (Hq _ _ _ E).
  - exact IH.
Qed.

Lemma Then_loop_well_behaved outType ps acc rest n r :
  Forall well_behaved ps -> all_no_nil acc = true ->
  Then_loop outType ps acc rest = Ret (n, r, true) ->
  suffix_of r rest /\ exists node, n = Some node /\ no_nil node = true.
Proof.
  intros Hps. revert acc rest.
  induction Hps as [| q ps Hq _ IH]; intros acc rest Hacc; simpl.
  - intros H; inversion H; subst. split; [apply suffix_of_refl | eauto].
  - destruct (q rest) as [[[qn qr] []] | | |] eqn:E; simpl; try discriminate.
    destruct (Hq _ _ _ E) as (Hsuf & c & -> & Hc). intros H.
    apply IH in H; [| apply all_no_nil_snoc; assumption].
    destruct H as [Hsuf' Hnode].
    split; [eapply suffix_of_trans; eassumption | exact Hnode].
Qed.

Lemma ThenSkipping_loop_well_behaved outType skip ps acc rest n r :
  well_behaved skip -> Forall well_behaved ps -> all_no_nil acc = true ->
  ThenSkipping_loop outType skip ps acc rest = Ret (n, r, true) ->
  suffix_of r rest /\ exists node, n = Some node /\ no_nil node = true.
Proof.
  intros Hskip Hps. revert acc rest.
  induction Hps as [| q ps Hq _ IH]; intros acc rest Hacc; simpl.
  - intros H; inversion H; subst. split; [apply suffix_of_refl | eauto].
  - destruct (skip rest) as [[[sn sr] sok] | | |] eqn:Es; simpl;
      try discriminate.
    assert (Hskipped : suffix_of (if sok then sr else rest) rest).
    { destruct sok; [apply (Hskip _ _ _ Es) | apply suffix_of_refl]. }
    destruct (q _) as [[[qn qr] []] | | |] eqn:E; simpl; try discriminate.
    destruct (Hq _ _ _ E) as (Hsuf & c & -> & Hc). intros H.
    apply IH in H; [| apply all_no_nil_snoc; assumption].
    destruct H as [Hsuf' Hnode]. split; [| exact Hnode].
    eapply suffix_of_trans; [exact Hsuf' |].
    eapply suffix_of_trans; eassumption.
Qed.

(** X6: every parser of the engine, when it succeeds, returns a tree in
    which no child at any depth is nil, and a remainder that is a suffix of
    its input: a parser never reads backwards and never invents text. *)
Theorem engine_well_behaved (p : Parser) (input : string) (n : option Node)
    (r : string) :
  engine p ->
  p input = Ret (n, r, true) ->
  suffix_of r input /\ exists node, n = Some node /\ no_nil node = true.
Proof.
  intros Hp. revert input n r. change (well_behaved p).
  induction Hp using engine_nested_ind.
  - apply well_behaved_Digit.
  - apply well_behaved_Character.
  - apply well_behaved_Regex.
  - intros input n r. apply Some_loop_well_behaved; [assumption | reflexivity].
  - intros input n r.
    apply AtLeast_loop_well_behaved; [assumption | reflexivity].
  - apply well_behaved_Or; assumption.
  - intros input n r. apply Then_loop_well_behaved; [assumption | reflexivity].
  - intros input n r.
    apply ThenSkipping_loop_well_behaved; [assumption .. | reflexivity].
  - apply well_behaved_Skipping; assumption.
  - apply well_behaved_As; assumption.
Qed.

Lemma engine_well_behaved_witness :
  suffix_of "b" "aab"
  /\ exists node,
       tree "As" [leaf Char "a"; leaf Char "a"] = Some node
       /\ no_nil node = true.
Proof.
  apply (engine_well_behaved (Some_ 4 "As" (Character "a")) "aab").
  - apply engine_Some, engine_Character.
  - reflexivity.
Defined.

(** ** Termination of the grammar *)

Lemma matchHere_positive re s n :
  nonempty re = true -> matchHere re s = Some n -> 0 < n.
Proof.
  revert s n. induction re as [| [c q] re IH]; intros s n; simpl;
    [discriminate |].
  assert (Hone : forall (k : string -> option nat) s n,
             match s with
             | String x xs => if c x then S <$> k xs else None
             | EmptyString => None
             end = Some n -> 0 < n).
  { intros k [| x xs] m; [discriminate |].
    destruct (c x); [| discriminate].
    destruct (k xs) as [j |]; simpl; [| discriminate].
    intros H; inversion H; lia. }
  destruct q; simpl; intros Hne.
  - apply Hone.
  - match goal with
    | |- match ?o with _ => _ end = _ -> _ => destruct o as [j |] eqn:E
    end; [| apply IH, Hne].
    intros H; inversion H; subst. revert E. apply Hone.
  - revert n. induction s as [| x xs IHs]; intros n; [apply IH, Hne |].
    destruct (c x); [| apply IH, Hne].
    match goal with
    | |- context [match ?f xs with _ => _ end] =>
        destruct (f xs) as [j |] eqn:E
    end; [| apply IH, Hne].
    intros H; inversion H; lia.
  - apply Hone.
Qed.

Lemma sound_on_weaken k k' (strict strict' : bool) p :
  k' <= k -> (strict' = true -> strict = true) ->
  sound_on k strict p -> sound_on k' strict' p.
Proof.
  intros Hk Hs H s Hlen. destruct (H s) as (n & r & ok & E & Hok); [lia |].
  exists n, r, ok. split; [exact E |].
  intros Ht. destruct (Hok Ht) as [Hsuf Hstrict]. auto.
Qed.

Lemma sound_on_Character k chr : sound_on k true (Character chr).
Proof.
  intros [| c s] _; simpl.
  - exists None, "", false. split; [reflexivity | discriminate].
  - destruct (Ascii.eqb c chr).
    + eexists _, _, _. split; [reflexivity |]. intros _.
      split; [exists (String c ""); reflexivity | simpl; lia].
    + exists None, "", false. split; [reflexivity | discriminate].
Qed.

Lemma sound_on_Regex k outType regex :
  sound_on k (nonempty regex) (Regex outType regex).
Proof.
  intros s _. pose proof (Regex_match outType regex s) as H.
  destruct (matchHere regex s) as [m |] eqn:Em.
  - destruct H as (-> & Hsplit & Hlen).
    eexists _, _, _. split; [reflexivity |]. intros _. split.
    + eexists. symmetry. exact Hsplit.
    + intros Hne. pose proof (matchHere_positive _ _ _ Hne Em).
      rewrite <- Hsplit at 2. rewrite append_length, Hlen. lia.
  - rewrite H. exists None, "", false. split; [reflexivity | discriminate].
Qed.

Lemma sound_on_Or k strict ps :
  Forall (sound_on k strict) ps -> sound_on k strict (Or ps).
Proof.
  intros Hps s Hlen. induction Hps as [| q ps Hq _ IH]; simpl.
  - exists None, "", false. split; [reflexivity | discriminate].
  - destruct (Hq s Hlen) as (n & r & ok & E & Hok). rewrite E. simpl.
    destruct ok; [| exact IH].
    exists n, r, true. split; [reflexivity | exact Hok].
Qed.

Lemma sound_on_As k strict outType p :
  sound_on k strict p -> sound_on k strict (As outType p).
Proof.
  intros Hp s Hlen. unfold As.
  destruct (Hp s Hlen) as (n & r & ok & E & Hok). rewrite E. simpl.
  eexists _, _, _. split; [reflexivity | exact Hok].
Qed.

(** The input a parser is given after an optional skip. *)
Lemma skipped_input k skip s :
  sound_on k false skip -> String.length s < k ->
  exists sn sr sok,
    skip s = Ret (sn, sr, sok)
    /\ suffix_of (if sok then sr else s) s.
Proof.
  intros Hskip Hlen. destruct (Hskip s Hlen) as (sn & sr & sok & E & Hok).
  exists sn, sr, sok. split; [exact E |].
  destruct sok; [apply Hok; reflexivity | apply suffix_of_refl].
Qed.

Lemma sound_on_Skipping k strict skip p :
  sound_on k false skip -> sound_on k strict p ->
  sound_on k strict (Skipping skip p).
Proof.
  intros Hskip Hp s Hlen. unfold Skipping.
  destruct (skipped_input k skip s Hskip Hlen) as (sn & sr & sok & E & Hsuf).
  rewrite E. simpl. pose proof (suffix_of_length _ _ Hsuf) as Hle.
  destruct (Hp (if sok then sr else s)) as (n & r & ok & Ep & Hok); [lia |].
  exists n, r, ok. split; [exact Ep |]. intros Ht.
  destruct (Hok Ht) as [Hs Hstrict].
  split; [eapply suffix_of_trans; eassumption |].
  intros Hst. specialize (Hstrict Hst). lia.
Qed.

Lemma ThenSkipping_loop_sound k outType skip ps :
  sound_on k false skip -> Forall (sound_on k false) ps ->
  forall acc rest,
    String.length rest < k ->
    exists n r ok,
      ThenSkipping_loop outType skip ps acc rest = Ret (n, r, ok)
      /\ (ok = true -> suffix_of r rest).
Proof.
  intros Hskip Hps.
  induction Hps as [| q ps Hq _ IH]; intros acc rest Hlen; simpl.
  - eexists _, _, _. split; [reflexivity |]. intros _. apply suffix_of_refl.
  - destruct (skipped_input k skip rest Hskip Hlen)
      as (sn & sr & sok & E & Hsuf).
    rewrite E. simpl. pose proof (suffix_of_length _ _ Hsuf) as Hle.
    destruct (Hq (if sok then sr else rest)) as (n & r & ok & Eq & Hok);
      [lia |].
    rewrite Eq. simpl. destruct ok; simpl.
    + destruct (Hok eq_refl) as [Hs _].
      pose proof (suffix_of_length _ _ Hs) as Hle'.
      destruct (IH (acc ++ [n])%list r) as (n' & r' & ok' & E' & Hok');
        [lia |].
      exists n', r', ok'. split; [exact E' |]. intros Ht.
      eapply suffix_of_trans; [apply Hok', Ht |].
      eapply suffix_of_trans; eassumption.
    + exists None, "", false. split; [reflexivity | discriminate].
Qed.

(** A sequence whose first element consumes: the elements after it only
    see shorter inputs. *)
Lemma sound_on_ThenSkipping k outType skip p ps :
  sound_on k false skip -> sound_on k true p ->
  Forall (sound_on (k - 1) false) ps ->
  sound_on k true (ThenSkipping outType skip (p :: ps)).
Proof.
  intros Hskip Hp Hps s Hlen. unfold ThenSkipping. simpl.
  destruct (skipped_input k skip s Hskip Hlen) as (sn & sr & sok & E & Hsuf).
  rewrite E. simpl. pose proof (suffix_of_length _ _ Hsuf) as Hle.
  destruct (Hp (if sok then sr else s)) as (n & r & ok & Ep & Hok); [lia |].
  rewrite Ep. simpl. destruct ok; simpl.
  - destruct (Hok eq_refl) as [Hs Hstrict]. specialize (Hstrict eq_refl).
    destruct (ThenSkipping_loop_sound (k - 1) outType skip ps
                (sound_on_weaken k (k - 1) false false skip
                   ltac:(lia) ltac:(auto) Hskip)
                Hps ([] ++ [n])%list r)
      as (n' & r' & ok' & E' & Hok'); [lia |].
    exists n', r', ok'. split; [exact E' |]. intros Ht.
    specialize (Hok' Ht). pose proof (suffix_of_length _ _ Hok').
    split; [| intros _; lia].
    eapply suffix_of_trans; [exact Hok' |].
    eapply suffix_of_trans; eassumption.
  - exists None, "", false. split; [reflexivity | discriminate].
Qed.

Lemma Some_loop_sound k outType p :
  sound_on k true p ->
  forall fuel acc rest,
    String.length rest < k -> String.length rest < fuel ->
    exists n r,
      Some_loop fuel outType p acc rest = Ret (Some n, r, true)
      /\ suffix_of r rest.
Proof.
  intros Hp fuel.
  induction fuel as [| fuel IH]; intros acc rest Hk Hf; [lia |].
  simpl. destruct (Hp rest Hk) as (n & r & ok & E & Hok). rewrite E. simpl.
  destruct ok; simpl.
  - destruct (Hok eq_refl) as [Hs Hstrict]. specialize (Hstrict eq_refl).
    destruct (IH (acc ++ [n])%list r) as (n' & r' & E' & Hs'); [lia | lia |].
    exists n', r'. split; [exact E' |].
    eapply suffix_of_trans; eassumption.
  - eexists _, _. split; [reflexivity | apply suffix_of_refl].
Qed.

Lemma sound_on_Some k fuel outType p :
  sound_on k true p -> k <= fuel -> sound_on k false (Some_ fuel outType p).
Proof.
  intros Hp Hle s Hlen.
  destruct (Some_loop_sound k outType p Hp fuel [] s) as (n & r & E & Hs);
    [lia | lia |].
  exists (Some n), r, true. split; [exact E |]. intros _.
  split; [exact Hs | discriminate].
Qed.

Lemma AtLeast_loop_sound k outType minimum p :
  sound_on k true p ->
  forall fuel num acc rest,
    String.length rest < k -> String.length rest < fuel ->
    exists n r ok,
      AtLeast_loop fuel outType minimum p num acc rest = Ret (n, r, ok)
      /\ (ok = true ->
          suffix_of r rest
          /\ ((minimum <=? num)%Z = false ->
              String.length r < String.length rest)).
Proof.
  intros Hp fuel.
  induction fuel as [| fuel IH]; intros num acc rest Hk Hf; [lia |].
  simpl. destruct (Hp rest Hk) as (n & r & ok & E & Hok). rewrite E. simpl.
  destruct ok; simpl.
  - destruct (Hok eq_refl) as [Hs Hstrict]. specialize (Hstrict eq_refl).
    destruct (IH (wrap64 (num + 1)) (acc ++ [n])%list r)
      as (n' & r' & ok' & E' & Hok'); [lia | lia |].
    exists n', r', ok'. split; [exact E' |]. intros Ht.
    destruct (Hok' Ht) as [Hs' _]. pose proof (suffix_of_length _ _ Hs').
    split; [eapply suffix_of_trans; eassumption | intros _; lia].
  - destruct (minimum <=? num)%Z.
    + eexists _, _, _. split; [reflexivity |]. intros _.
      split; [apply suffix_of_refl | discriminate].
    + exists None, "", false. split; [reflexivity | discriminate].
Qed.

Lemma sound_on_AtLeast k fuel outType minimum p :
  sound_on k true p -> k <= fuel -> (1 <= minimum)%Z ->
  sound_on k true (AtLeast fuel outType minimum p).
Proof.
  intros Hp Hle Hmin s Hlen.
  destruct (AtLeast_loop_sound k outType minimum p Hp fuel 0%Z [] s)
    as (n & r & ok & E & Hok); [lia | lia |].
  exists n, r, ok. split; [exact E |]. intros Ht.
  destruct (Hok Ht) as [Hs Hstrict]. split; [exact Hs |].
  intros _. apply Hstrict. apply Z.leb_gt. lia.
Qed.

Lemma sound_on_lax k p : sound_on k true p -> sound_on k false p.
Proof. apply sound_on_weaken; [lia | discriminate]. Qed.

(** Soundness of a parser written with the combinators, from that of its
    parts. *)
Ltac sound :=
  repeat match goal with
  | |- Forall _ _ => constructor
  | H : sound_on _ _ ?p |- sound_on _ _ ?p =>
      refine (sound_on_weaken _ _ _ _ _ _ _ H); [lia | solve [auto]]
  | |- sound_on _ false WS => apply (sound_on_Regex _ Whitespace)
  | |- sound_on _ false LineDelim => apply (sound_on_Regex _ Whitespace)
  | |- sound_on _ false ArguementDelimeter =>
      apply (sound_on_Regex _ "ArgumentDelimeter")
  | |- sound_on _ false (Some_ _ _ _) => apply sound_on_Some; [| lia]
  | |- sound_on _ false _ => apply sound_on_lax
  | |- sound_on _ true (Character _) => apply sound_on_Character
  | |- sound_on _ true Variable_ => apply (sound_on_Regex _ "Variable")
  | |- sound_on _ true Number => apply (sound_on_Regex _ "Number")
  | |- sound_on _ true (Or _) => apply sound_on_Or
  | |- sound_on _ true (As _ _) => apply sound_on_As
  | |- sound_on _ true (Skipping _ _) => apply sound_on_Skipping
  | |- sound_on _ true (ThenSkipping _ _ (_ :: _)) =>
      apply sound_on_ThenSkipping
  | |- sound_on _ true (AtLeast _ _ _ _) =>
      apply sound_on_AtLeast; [| lia | lia]
  end.

Section RulesSound.
Variable fuel : nat.
Variable e : Parser.
Hypothesis He : sound_on fuel true e.

Lemma FunctionCall_of_sound : sound_on (S fuel) true (FunctionCall_of fuel e).
Proof. unfold FunctionCall_of. sound. Qed.

Lemma Unit_of_sound : sound_on (S fuel) true (Unit_of fuel e).
Proof. pose proof FunctionCall_of_sound. unfold Unit_of. sound. Qed.

Lemma Multiplication_of_sound :
  sound_on (S fuel) true (Multiplication_of fuel e).
Proof. pose proof Unit_of_sound. unfold Multiplication_of. sound. Qed.

Lemma Sum_of_sound : sound_on (S fuel) true (Sum_of fuel e).
Proof. pose proof Multiplication_of_sound. unfold Sum_of. sound. Qed.
End RulesSound.

Lemma Expression_sound fuel : sound_on fuel true (Expression fuel).
Proof.
  induction fuel as [| fuel IH]; [intros s Hlen; lia |].
  simpl. apply sound_on_As, Sum_of_sound, IH.
Qed.

Lemma Line_sound fuel :
  sound_on fuel true
    (ThenSkipping "Line" WS
       [Or [Declaration fuel; Expression fuel]; LineDelim]).
Proof.
  pose proof (Expression_sound fuel).
  unfold Declaration, VariableDeclaration, FunctionDeclaration. sound.
Qed.

(** X8: the expression parser terminates on every input: with fuel beyond
    the length of the input it returns; when it succeeds, it has consumed at
    least one byte and its remainder is a suffix of the input. *)
Theorem Expression_terminates (fuel : nat) (input : string) :
  String.length input < fuel ->
  exists n r ok,
    Expression fuel input = Ret (n, r, ok)
    /\ (ok = true ->
        suffix_of r input /\ String.length r < String.length input).
Proof.
  intros Hlen. destruct (Expression_sound fuel input Hlen)
    as (n & r & ok & E & Hok).
  exists n, r, ok. split; [exact E |]. intros Ht.
  destruct (Hok Ht) as [Hs Hstrict]. auto.
Qed.

Lemma Expression_terminates_witness :
  exists n r ok,
    Expression 5 "1+2)" = Ret (n, r, ok)
    /\ (ok = true ->
        suffix_of r "1+2)" /\ String.length r < String.length "1+2)").
Proof. apply (Expression_terminates 5 "1+2)"). simpl. lia. Defined.

Lemma Program_returns fuel input :
  String.length input < fuel ->
  exists node rest,
    Program fuel input = Ret (Some node, rest, true) /\ suffix_of rest input.
Proof.
  intros Hlen. unfold Program, Some_.
  apply (Some_loop_sound fuel "Lines" _ (Line_sound fuel)); lia.
Qed.

(** X9: the program parser terminates and succeeds on every input: with
    fuel beyond the length of the input it returns a tree and a remainder
    that is a suffix of the input.  There is no input on which the parse
    fails or runs forever. *)
Theorem Program_terminates (fuel : nat) (input : string) :
  String.length input < fuel ->
  exists node rest,
    Program fuel input = Ret (Some node, rest, true) /\ suffix_of rest input.
Proof.
  exact (Program_returns fuel input).
Qed.

Lemma Program_terminates_witness :
  exists node rest,
    Program 9 "x=1;x+)" = Ret (Some node, rest, true)
    /\ suffix_of rest "x=1;x+)".
Proof. apply (Program_terminates 9 "x=1;x+)"). simpl. lia. Defined.

(** ** Trees of the grammar *)

Lemma well_behaved_Some fuel outType p :
  well_behaved p -> well_behaved (Some_ fuel outType p).
Proof.
  intros Hp input n r. apply Some_loop_well_behaved; [exact Hp | reflexivity].
Qed.

Lemma well_behaved_AtLeast fuel outType minimum p :
  well_behaved p -> well_behaved (AtLeast fuel outType minimum p).
Proof.
  intros Hp input n r.
  apply AtLeast_loop_well_behaved; [exact Hp | reflexivity].
Qed.

Lemma well_behaved_ThenSkipping outType skip ps :
  well_behaved skip -> Forall well_behaved ps ->
  well_behaved (ThenSkipping outType skip ps).
Proof.
  intros Hskip Hps input n r.
  apply ThenSkipping_loop_well_behaved; [assumption .. | reflexivity].
Qed.

Ltac behaved :=
  repeat match goal with
  | |- Forall _ _ => constructor
  | H : well_behaved ?p |- well_behaved ?p => exact H
  | |- well_behaved (Character _) => apply well_behaved_Character
  | |- well_behaved WS => apply (well_behaved_Regex Whitespace)
  | |- well_behaved LineDelim => apply (well_behaved_Regex Whitespace)
  | |- well_behaved ArguementDelimeter =>
      apply (well_behaved_Regex "ArgumentDelimeter")
  | |- well_behaved Variable_ => apply (well_behaved_Regex "Variable")
  | |- well_behaved Number => apply (well_behaved_Regex "Number")
  | |- well_behaved (Or _) => apply well_behaved_Or
  | |- well_behaved (As _ _) => apply well_behaved_As
  | |- well_behaved (Skipping _ _) => apply well_behaved_Skipping
  | |- well_behaved (ThenSkipping _ _ _) => apply well_behaved_ThenSkipping
  | |- well_behaved (Some_ _ _ _) => apply well_behaved_Some
  | |- well_behaved (AtLeast _ _ _ _) => apply well_behaved_AtLeast
  end.

Section RulesBehaved.
Variable fuel : nat.
Variable e : Parser.
Hypothesis He : well_behaved e.

Lemma FunctionCall_of_behaved : well_behaved (FunctionCall_of fuel e).
Proof. unfold FunctionCall_of. behaved. Qed.

Lemma Unit_of_behaved : well_behaved (Unit_of fuel e).
Proof. pose proof FunctionCall_of_behaved. unfold Unit_of. behaved. Qed.

Lemma Multiplication_of_behaved : well_behaved (Multiplication_of fuel e).
Proof. pose proof Unit_of_behaved. unfold Multiplication_of. behaved. Qed.

Lemma Sum_of_behaved : well_behaved (Sum_of fuel e).
Proof. pose proof Multiplication_of_behaved. unfold Sum_of. behaved. Qed.
End RulesBehaved.

Lemma Expression_behaved fuel : well_behaved (Expression fuel).
Proof.
  induction fuel as [| fuel IH]; [intros input n r; discriminate |].
  simpl. apply well_behaved_As, Sum_of_behaved, IH.
Qed.

Lemma Program_behaved fuel : well_behaved (Program fuel).
Proof.
  pose proof (Expression_behaved fuel).
  unfold Program, Declaration, VariableDeclaration, FunctionDeclaration.
  behaved.
Qed.

(** ** Printing *)

Lemma Node_nested_ind (P : Node -> Prop) :
  (forall typ children value,
      Forall (fun child => forall c, child = Some c -> P c) children ->
      P (mkNode typ children value)) ->
  forall node, P node.
Proof.
  intros H. fix IH 1. intros [typ children value]. apply H.
  induction children as [| [c |] children IHc]; constructor;
    try exact IHc.
  - pose proof (IH c) as Hc. intros c' E. inversion E; subst. exact Hc.
  - intros c' E. discriminate E.
Qed.

Lemma String_range_returns render children :
  Forall (fun child =>
            forall c, child = Some c -> no_nil c = true ->
                      exists text, render c = Ret text) children ->
  all_no_nil children = true ->
  forall i output, exists text, String_range render i children output = Ret text.
Proof.
  induction 1 as [| child children Hchild _ IH]; intros Hwf i output; simpl.
  - eauto.
  - unfold all_no_nil in Hwf. simpl in Hwf.
    apply andb_prop in Hwf. destruct Hwf as [Hc Hcs].
    destruct child as [c |]; [| discriminate].
    destruct (Hchild c eq_refl Hc) as [text Htext].
    destruct (Nat.ltb 0 i); simpl; rewrite Htext; simpl; apply IH; assumption.
Qed.

Lemma Node_String_returns node :
  no_nil node = true -> exists text, Node_String node = Ret text.
Proof.
  induction node as [typ children value IH] using Node_nested_ind.
  intros Hwf. simpl.
  destruct (String.eqb typ "Whitespace"); [eauto |].
  destruct (negb (String.eqb value "")); [eauto |].
  destruct (String_range_returns Node_String children IH Hwf 0 (typ ++ "["))
    as [text Htext].
  rewrite Htext. simpl. eauto.
Qed.

(** X10: on every input the parse returns a tree in which no child at any
    depth is nil, and printing that tree returns a text: [main] cannot panic
    on a nil node while it prints the tree. *)
Theorem parsed_tree_prints (fuel : nat) (input : string) :
  String.length input < fuel ->
  exists node rest text,
    Program fuel input = Ret (Some node, rest, true)
    /\ no_nil node = true
    /\ Node_String node = Ret text.
Proof.
  intros Hlen. destruct (Program_returns fuel input Hlen)
    as (node & rest & E & _).
  destruct (Program_behaved fuel _ _ _ E) as (_ & node' & Hn & Hwf).
  inversion Hn; subst node'.
  destruct (Node_String_returns node Hwf) as [text Htext].
  exists node, rest, text. auto.
Qed.

Lemma parsed_tree_prints_witness :
  exists node rest text,
    Program 9 "f(2)+1" = Ret (Some node, rest, true)
    /\ no_nil node = true
    /\ Node_String node = Ret text.
Proof. apply (parsed_tree_prints 9 "f(2)+1"). simpl. lia. Defined.

Example printed_sum :
  exists node,
    Expression 8 "1 + 2*x" = Ret (Some node, "", true)
    /\ Node_String node
       = Ret "Expression[Sum[1 Terms[Term[OpAdd[+] Multiplication[2 Terms[Term[OpMult[*] x]]]]]]]".
Proof. eexists. split; vm_compute; reflexivity. Qed.

(** ** Blanks in front of the input *)

Lemma WS_blank s :
  exists n n' r, WS (String " " s) = Ret (n, r, true) /\ WS s = Ret (n', r, true).
Proof.
  unfold WS. rewrite !Regex_star. eexists _, _, _. split; reflexivity.
Qed.

Lemma blank_insensitive_Skipping p : blank_insensitive (Skipping WS p).
Proof.
  intros s. unfold Skipping.
  destruct (WS_blank s) as (n & n' & r & -> & ->). reflexivity.
Qed.

Lemma blank_insensitive_ThenSkipping outType p ps :
  blank_insensitive (ThenSkipping outType WS (p :: ps)).
Proof.
  intros s. unfold ThenSkipping. simpl.
  destruct (WS_blank s) as (n & n' & r & -> & ->). reflexivity.
Qed.

Lemma blank_insensitive_Or ps :
  Forall blank_insensitive ps -> blank_insensitive (Or ps).
Proof.
  intros Hps s. induction Hps as [| q ps Hq _ IH]; simpl; [reflexivity |].
  rewrite Hq, IH. reflexivity.
Qed.

Lemma blank_insensitive_As outType p :
  blank_insensitive p -> blank_insensitive (As outType p).
Proof. intros Hp s. unfold As. rewrite Hp. reflexivity. Qed.

Lemma blank_insensitive_Expression fuel : blank_insensitive (Expression fuel).
Proof.
  destruct fuel as [| fuel]; [intros s; reflexivity |].
  simpl. apply blank_insensitive_As. unfold Sum_of.
  apply blank_insensitive_Or.
  repeat constructor;
    [apply blank_insensitive_ThenSkipping | apply blank_insensitive_Skipping].
Qed.

Lemma blank_insensitive_Declaration fuel :
  blank_insensitive (Declaration fuel).
Proof.
  unfold Declaration. apply blank_insensitive_Or.
  repeat constructor; apply blank_insensitive_ThenSkipping.
Qed.

(** X7: blanks in front of the input change nothing for an expression or a
    declaration: the parser returns the same tree, remainder and flag with
    or without them. *)
Theorem leading_blanks_ignored (fuel n : nat) (input : string) :
  Expression fuel (spaces n ++ input) = Expression fuel input
  /\ Declaration fuel (spaces n ++ input) = Declaration fuel input.
Proof.
  induction n as [| n [IHe IHd]]; [split; reflexivity |].
  change (spaces (S n) ++ input) with (String " " (spaces n ++ input)).
  rewrite blank_insensitive_Expression, blank_insensitive_Declaration. auto.
Qed.

(** The program parser is different when no line can be parsed: the
    remainder is the input as given, blanks included. *)
Example Program_keeps_leading_blanks :
  Program 3 " +" = Ret (tree "Lines" [], " +", true)
  /\ Program 3 "+" = Ret (tree "Lines" [], "+", true).
Proof. split; vm_compute; reflexivity. Qed.

(** * Further properties of the evaluator *)

(** ** Declarations *)

Lemma read_var_store h l vars name value :
  vmaps h !! l = Some vars ->
  exists h',
    store_var l name value h = Ret h'
    /\ read_var h' l name = value
    /\ (forall other, other <> name -> read_var h' l other = read_var h l other)
    /\ fmaps h' = fmaps h.
Proof.
  destruct l as [l |]; [| discriminate]. intros Hl.
  change (vmaps h !! l = Some vars) in Hl.
  unfold store_var. rewrite Hl. eexists. split; [reflexivity |].
  pose proof (lookup_lt_Some _ _ _ Hl) as Hlt.
  unfold read_var. simpl. rewrite !reference_Some.
  rewrite list_lookup_insert_eq by exact Hlt.
  rewrite Hl. simpl. split; [rewrite lookup_insert_eq; reflexivity |].
  split; [| reflexivity].
  intros other Hne. rewrite lookup_insert_ne by congruence. reflexivity.
Qed.

(** X11: a variable declaration line evaluates its right-hand side, stores
    the value under the declared name and prints the assignment; reading the
    name afterwards gives that value, every other variable reads as it did
    after the evaluation, and the functions are untouched. *)
Theorem variable_declaration_stores (fuel : nat) (memory : Memory)
    (h h1 : Heap) (node line name : Node) (expression : option Node)
    (value : float) (vars : gmap string float) :
  Children node !! 0 = Some (Some line) ->
  Typ line = "VariableDeclaration" ->
  Children line !! 0 = Some (Some name) ->
  Children line !! 2 = Some expression ->
  vmaps h !! Variables memory = Some vars ->
  Eval fuel expression memory h = Ret (value, h1) ->
  exists h2,
    Exec_line fuel (Some node) memory h
    = Ret (h2, [Assignment (Value name) value])
    /\ read_var h2 (Variables memory) (Value name) = value
    /\ (forall other,
          other <> Value name ->
          read_var h2 (Variables memory) other
          = read_var h1 (Variables memory) other)
    /\ fmaps h2 = fmaps h1.
Proof.
  intros Hnode Htyp Hname Hexpr Hvars Heval.
  pose proof (Eval_frames _ _ _ _ _ _ Heval) as Hext.
  pose proof (heap_extends_reference _ _ _ _ Hext Hvars) as Hvars1.
  destruct (read_var_store h1 (Variables memory) vars (Value name) value Hvars1)
    as (h2 & Hstore & Hread & Hothers & Hfuns).
  exists h2. split; [| auto].
  unfold Exec_line, child. simpl. rewrite Hnode. simpl.
  rewrite Htyp. simpl. rewrite Hname. simpl. rewrite Hexpr. simpl.
  rewrite Heval. simpl. rewrite Hstore. simpl. rewrite Hread. reflexivity.
Qed.

Lemma variable_declaration_stores_witness :
  exists h2,
    Exec_line 3
      (tree "Line"
         [tree "VariableDeclaration"
            [leaf "Variable" "y"; leaf Char "="; x_times_2];
          leaf Whitespace ""])
      (mkMemory (Some 0) (Some 0)) heap_x_5
    = Ret (h2, [Assignment "y" 10%float])
    /\ read_var h2 (Some 0) "y" = 10%float
    /\ (forall other,
          other <> "y" -> read_var h2 (Some 0) other = read_var heap_x_5 (Some 0) other)
    /\ fmaps h2 = fmaps heap_x_5.
Proof.
  apply (variable_declaration_stores 3 (mkMemory (Some 0) (Some 0)) heap_x_5 heap_x_5
           (mkNode "Line"
              [tree "VariableDeclaration"
                 [leaf "Variable" "y"; leaf Char "="; x_times_2];
               leaf Whitespace ""] "")
           (mkNode "VariableDeclaration"
              [leaf "Variable" "y"; leaf Char "="; x_times_2] "")
           (mkNode "Variable" [] "y")
           x_times_2 10%float {["x" := 5%float]});
    reflexivity.
Defined.

Lemma read_fun_store h l funs name f :
  fmaps h !! l = Some funs ->
  exists h',
    store_fun l name f h = Ret h'
    /\ read_fun h' l name = f
    /\ (forall other, other <> name -> read_fun h' l other = read_fun h l other)
    /\ vmaps h' = vmaps h.
Proof.
  destruct l as [l |]; [| discriminate]. intros Hl.
  change (fmaps h !! l = Some funs) in Hl.
  unfold store_fun. rewrite Hl. eexists. split; [reflexivity |].
  pose proof (lookup_lt_Some _ _ _ Hl) as Hlt.
  unfold read_fun. simpl. rewrite !reference_Some.
  rewrite list_lookup_insert_eq by exact Hlt.
  rewrite Hl. simpl. split; [rewrite lookup_insert_eq; reflexivity |].
  split; [| reflexivity].
  intros other Hne. rewrite lookup_insert_ne by congruence. reflexivity.
Qed.

(** The parameters collected from the children the grammar builds are the
    names, in order. *)
Lemma collect_parameters_names names delimiter acc :
  collect_parameters
    (map (fun name => tree "Parameter" [leaf "Variable" name; delimiter]) names)
    acc
  = Ret (acc ++ names)%list.
Proof.
  revert acc. induction names as [| name names IH]; intros acc; simpl.
  - rewrite app_nil_r. reflexivity.
  - rewrite IH, <- app_assoc. reflexivity.
Qed.

(** X12: a function declaration line evaluates nothing and prints nothing:
    it registers the parameter names and the body under the declared name,
    replacing an earlier declaration of that name; the other functions and
    all the variables are as before. *)
Theorem function_declaration_registers (fuel : nat) (memory : Memory)
    (h : Heap) (node line name ps : Node) (body : option Node)
    (parameters : list string) (funs : gmap string MemoryFunction) :
  Children node !! 0 = Some (Some line) ->
  Typ line = "FunctionDeclaration" ->
  Children line !! 0 = Some (Some name) ->
  Children line !! 2 = Some (Some ps) ->
  Children line !! 5 = Some body ->
  collect_parameters (Children ps) [] = Ret parameters ->
  fmaps h !! Functions memory = Some funs ->
  exists h2,
    Exec_line fuel (Some node) memory h = Ret (h2, [])
    /\ read_fun h2 (Functions memory) (Value name)
       = mkMemoryFunction parameters body
    /\ (forall other,
          other <> Value name ->
          read_fun h2 (Functions memory) other
          = read_fun h (Functions memory) other)
    /\ vmaps h2 = vmaps h.
Proof.
  intros Hnode Htyp Hname Hps Hbody Hcollect Hfuns.
  destruct (read_fun_store h (Functions memory) funs (Value name)
              (mkMemoryFunction parameters body) Hfuns)
    as (h2 & Hstore & Hread & Hothers & Hvars).
  exists h2. split; [| auto].
  unfold Exec_line, child. simpl. rewrite Hnode. simpl.
  rewrite Htyp. simpl. rewrite Hps. simpl. rewrite Hcollect. simpl.
  rewrite Hname. simpl. rewrite Hbody. simpl. rewrite Hstore. reflexivity.
Qed.

Lemma function_declaration_registers_witness :
  exists h2,
    Exec_line 0
      (tree "Line"
         [tree "FunctionDeclaration"
            [leaf "Variable" "f"; leaf Char "(";
             tree "Parameters"
               [tree "Parameter"
                  [leaf "Variable" "a"; leaf "ArgumentDelimeter" ","];
                tree "Parameter"
                  [leaf "Variable" "b"; leaf "ArgumentDelimeter" ""]];
             leaf Char ")"; leaf Char "="; x_times_2];
          leaf Whitespace ""])
      (mkMemory (Some 0) (Some 0)) heap_x_5
    = Ret (h2, [])
    /\ read_fun h2 (Some 0) "f" = mkMemoryFunction ["a"; "b"] x_times_2
    /\ (forall other,
          other <> "f" -> read_fun h2 (Some 0) other = read_fun heap_x_5 (Some 0) other)
    /\ vmaps h2 = vmaps heap_x_5.
Proof.
  apply (function_declaration_registers 0 (mkMemory (Some 0) (Some 0)) heap_x_5
           (mkNode "Line"
              [tree "FunctionDeclaration"
                 [leaf "Variable" "f"; leaf Char "(";
                  tree "Parameters"
                    [tree "Parameter"
                       [leaf "Variable" "a"; leaf "ArgumentDelimeter" ","];
                     tree "Parameter"
                       [leaf "Variable" "b"; leaf "ArgumentDelimeter" ""]];
                  leaf Char ")"; leaf Char "="; x_times_2];
               leaf Whitespace ""] "")
           (mkNode "FunctionDeclaration"
              [leaf "Variable" "f"; leaf Char "(";
               tree "Parameters"
                 [tree "Parameter"
                    [leaf "Variable" "a"; leaf "ArgumentDelimeter" ","];
                  tree "Parameter"
                    [leaf "Variable" "b"; leaf "ArgumentDelimeter" ""]];
               leaf Char ")"; leaf Char "="; x_times_2] "")
           (mkNode "Variable" [] "f")
           (mkNode "Parameters"
              [tree "Parameter"
                 [leaf "Variable" "a"; leaf "ArgumentDelimeter" ","];
               tree "Parameter"
                 [leaf "Variable" "b"; leaf "ArgumentDelimeter" ""]] "")
           x_times_2 ["a"; "b"] {["f" := mkMemoryFunction ["x"] x_times_2]});
    reflexivity.
Defined.

(** ** Calls *)

Lemma bind_arguments_last vs fs parameters arguments :
  forall i m,
    bind_arguments (Some (length vs)) parameters i arguments
      (mkHeap (vs ++ [m]) fs)
    = Ret (mkHeap (vs ++ [foldl put m (zip (drop i parameters) arguments)]) fs).
Proof.
  induction arguments as [| argument arguments IH]; intros i m; simpl.
  - destruct (drop i parameters); reflexivity.
  - destruct (parameters !! i) as [parameter |] eqn:E; simpl.
    + rewrite store_var_last. simpl. rewrite IH.
      rewrite (drop_S _ _ _ E). reflexivity.
    + rewrite IH. apply lookup_ge_None in E.
      rewrite !drop_ge by lia. reflexivity.
Qed.

(** The scope a call builds. *)
Lemma call_scope fuel memory h node name args arguments h1 :
  Typ node = "FunctionCall" ->
  Children node !! 0 = Some (Some name) ->
  Children node !! 2 = Some (Some args) ->
  eval_arguments (Eval fuel) memory (Children args) [] h
  = Ret (arguments, h1) ->
  let function := read_fun h (Functions memory) (Value name) in
  let vars := default ∅ (vmaps h1 !! Variables memory) in
  Eval (S fuel) (Some node) memory h
  = Eval fuel (FExpression function)
      (mkMemory (Some (length (vmaps h1))) (Functions memory))
      (mkHeap
         (vmaps h1 ++ [foldl put vars (zip (Parameters function) arguments)])
         (fmaps h1)).
Proof.
  intros Htyp Hname Hargs Heval function vars.
  simpl. rewrite Htyp. simpl. unfold child.
  rewrite Hname. simpl. rewrite Hargs. simpl. rewrite Heval. simpl.
  destruct h1 as [vs fs]. simpl in *.
  assert (Hrange : range_vars (mkHeap (vs ++ [∅]) fs) (Variables memory)
                   = map_to_list vars).
  { unfold range_vars, vars. simpl.
    destruct (Variables memory) as [l |];
      [rewrite !reference_Some
      | rewrite !reference_None; simpl; rewrite map_to_list_empty;
        reflexivity].
    destruct (vs !! l) as [m |] eqn:E; simpl.
    - rewrite (lookup_app_l_Some _ _ _ _ E). reflexivity.
    - apply lookup_ge_None in E.
      destruct (decide (l = length vs)) as [-> | Hne].
      + rewrite list_lookup_middle by reflexivity.
        rewrite map_to_list_empty. reflexivity.
      + rewrite lookup_ge_None_2; [rewrite map_to_list_empty; reflexivity |].
        rewrite length_app. simpl. lia. }
  rewrite Hrange, copy_variables_last, foldl_put_map_to_list. simpl.
  rewrite bind_arguments_last. simpl. rewrite drop_0. reflexivity.
Qed.

(** The arguments of a call are evaluated without a change to the map a
    reference of the caller points to. *)
Lemma eval_arguments_reference fuel memory nodes h arguments h1 r :
  reference_in (vmaps h) r ->
  eval_arguments (Eval fuel) memory nodes [] h = Ret (arguments, h1) ->
  vmaps h1 !! r = vmaps h !! r.
Proof.
  intros Hr Heval.
  apply eval_arguments_extends in Heval; [| apply Eval_frames].
  destruct r as [l |]; [| reflexivity]. rewrite !reference_Some.
  simpl in Hr. destruct (lookup_lt_is_Some_2 _ _ Hr) as [m Hm].
  rewrite Hm. eapply heap_extends_lookup; eassumption.
Qed.

(** X13: a call evaluates its arguments in the caller's environment, then
    evaluates the body of the function in a new scope: a new map, holding a
    copy of the caller's variables as they were when the call began (nothing
    for a caller whose map is nil), in which the parameters are bound to the
    arguments position by position.  Arguments beyond the parameters are
    dropped, and a parameter without an argument keeps whatever the caller's
    variable of that name holds.  The caller's reference is nil or points
    into the store. *)
Theorem call_binds_by_position (fuel : nat) (memory : Memory) (h h1 : Heap)
    (node name args : Node) (arguments : list float) :
  Typ node = "FunctionCall" ->
  Children node !! 0 = Some (Some name) ->
  Children node !! 2 = Some (Some args) ->
  reference_in (vmaps h) (Variables memory) ->
  eval_arguments (Eval fuel) memory (Children args) [] h
  = Ret (arguments, h1) ->
  let function := read_fun h (Functions memory) (Value name) in
  let vars := default ∅ (vmaps h !! Variables memory) in
  let scope := foldl put vars (zip (Parameters function) arguments) in
  Eval (S fuel) (Some node) memory h
  = Eval fuel (FExpression function)
      (mkMemory (Some (length (vmaps h1))) (Functions memory))
      (mkHeap (vmaps h1 ++ [scope]) (fmaps h1))
  /\ vmaps h1 !! Variables memory = vmaps h !! Variables memory.
Proof.
  intros Htyp Hname Hargs Hin Heval function vars scope.
  pose proof (eval_arguments_reference _ _ _ _ _ _ _ Hin Heval) as Hsame.
  split; [| exact Hsame].
  rewrite (call_scope fuel memory h node name args arguments h1
             Htyp Hname Hargs Heval).
  unfold scope, vars, function. rewrite Hsame. reflexivity.
Qed.

(** X14: a call of a name that is not in the function mapping panics once
    its arguments have been evaluated: the zero value found in the mapping
    has no body, and evaluating the nil body dereferences it. *)
Theorem undefined_function_panics (fuel : nat) (memory : Memory) (h h1 : Heap)
    (node name args : Node) (arguments : list float) :
  Typ node = "FunctionCall" ->
  Children node !! 0 = Some (Some name) ->
  Children node !! 2 = Some (Some args) ->
  (forall funs,
      fmaps h !! Functions memory = Some funs -> funs !! Value name = None) ->
  eval_arguments (Eval (S fuel)) memory (Children args) [] h
  = Ret (arguments, h1) ->
  Eval (S (S fuel)) (Some node) memory h = Panic.
Proof.
  intros Htyp Hname Hargs Hmiss Heval.
  rewrite (call_scope (S fuel) memory h node name args arguments h1
             Htyp Hname Hargs Heval).
  assert (Hzero : read_fun h (Functions memory) (Value name) = zero_function).
  { unfold read_fun.
    destruct (fmaps h !! Functions memory) as [funs |] eqn:E; simpl;
      [rewrite (Hmiss funs eq_refl) |]; reflexivity. }
  rewrite Hzero. reflexivity.
Qed.

Lemma call_binds_by_position_witness :
  Eval 3 (Some (call_of "f" [argument "9"; argument "4"]))
    (mkMemory (Some 0) (Some 0)) heap_x_5
  = Eval 2 x_times_2 (mkMemory (Some 1) (Some 0))
      (mkHeap
         [{["x" := 5%float]};
          foldl put {["x" := 5%float]} (zip ["x"] [9%float; 4%float])]
         (fmaps heap_x_5))
  /\ vmaps heap_x_5 !! Some 0 = vmaps heap_x_5 !! Some 0.
Proof.
  apply (call_binds_by_position 2 (mkMemory (Some 0) (Some 0)) heap_x_5
           heap_x_5
           (call_of "f" [argument "9"; argument "4"])
           (mkNode "Variable" [] "f")
           (mkNode "Arguments" [argument "9"; argument "4"] "")
           [9%float; 4%float]);
    try reflexivity.
  simpl. lia.
Defined.

(** A caller whose variable map is nil: the scope of a call holds the
    parameters only, and the nil map reads as zero before and after the
    call, also when the arguments made calls of their own. *)
Example nil_caller_map :
  let funs : gmap string MemoryFunction :=
    {["f" := mkMemoryFunction ["a"] (parsed "a+x");
      "g" := mkMemoryFunction ["x"] (parsed "x")]} in
  let memory := mkMemory None (Some 0) in
  let h := mkHeap [] [funs] in
  (exists h', Eval 20 (parsed "f(g(1))") memory h = Ret (1%float, h'))
  /\ (exists h', Eval 20 (parsed "g(9)+x") memory h = Ret (9%float, h')).
Proof. split; eexists; vm_compute; reflexivity. Qed.

Lemma undefined_function_panics_witness :
  Eval 2 (Some (call_of "g" [])) (mkMemory (Some 0) (Some 0)) heap_x_5 = Panic.
Proof.
  apply (undefined_function_panics 0 (mkMemory (Some 0) (Some 0)) heap_x_5 heap_x_5
           (call_of "g" []) (mkNode "Variable" [] "g")
           (mkNode "Arguments" [] "") []);
    try reflexivity.
  intros funs H. inversion H. reflexivity.
Defined.

(** ** Lines *)

Lemma Exec_lines_runs fuel memory lines h printed all h' :
  Exec_lines fuel lines memory h printed = (all, Ret h')
  <-> exists out, all = (printed ++ out)%list /\ runs fuel memory lines h out h'.
Proof.
  revert h printed. induction lines as [| line lines IH]; intros h printed;
    simpl.
  - split.
    + intros H; inversion H; subst. exists []. rewrite app_nil_r.
      split; [reflexivity | constructor].
    + intros (out & -> & Hruns). inversion Hruns; subst.
      rewrite app_nil_r. reflexivity.
  - split.
    + destruct (Exec_line fuel line memory h) as [[h1 out1] | | |] eqn:E;
        try (intros H; inversion H; fail).
      intros H. apply IH in H. destruct H as (out & -> & Hruns).
      exists (out1 ++ out)%list. rewrite app_assoc.
      split; [reflexivity |]. econstructor; eassumption.
    + intros (out & -> & Hruns). inversion Hruns; subst.
      match goal with
      | E : Exec_line _ _ _ _ = Ret _ |- _ => rewrite E
      end.
      apply IH. eexists. rewrite app_assoc. split; [reflexivity |].
      assumption.
Qed.

Lemma Exec_lines_panics fuel memory lines h printed all :
  Exec_lines fuel lines memory h printed = (all, Panic)
  <-> exists before line after out h1,
        lines = (before ++ line :: after)%list
        /\ runs fuel memory before h out h1
        /\ Exec_line fuel line memory h1 = Panic
        /\ all = (printed ++ out)%list.
Proof.
  revert h printed. induction lines as [| line lines IH]; intros h printed;
    simpl.
  - split; [intros H; inversion H |].
    intros (before & line & after & out & h1 & Hl & _).
    destruct before; discriminate.
  - split.
    + destruct (Exec_line fuel line memory h) as [[h1 out1] | | |] eqn:E;
        try (intros H; inversion H; fail).
      * intros H. apply IH in H.
        destruct H as (before & line' & after & out & h2 & -> & Hruns & Hp & ->).
        exists (line :: before), line', after, (out1 ++ out)%list, h2.
        rewrite app_assoc. repeat split; try assumption.
        econstructor; eassumption.
      * intros H; inversion H; subst.
        exists [], line, lines, [], h. rewrite app_nil_r.
        repeat split; [constructor | exact E].
    + intros (before & line' & after & out & h1 & Hl & Hruns & Hp & ->).
      destruct before as [| b before]; simpl in Hl; inversion Hl; subst;
        inversion Hruns; subst.
      * rewrite Hp, app_nil_r. reflexivity.
      * match goal with
        | E : Exec_line _ _ _ _ = Ret _ |- _ => rewrite E
        end.
        apply IH. eexists _, _, _, _, _. rewrite app_assoc.
        repeat split; eassumption.
Qed.


(** ** Numbers of the grammar *)

Lemma matchHere_plus c s :
  matchHere [(c, Plus)] s
  = match s with
    | String x xs =>
        if c x then Some (S (String.length (take_class c xs))) else None
    | EmptyString => None
    end.
Proof.
  destruct s as [| x xs]; [reflexivity |].
  pose proof (matchHere_star c xs) as H. simpl in *.
  destruct (c x); [| reflexivity]. rewrite H. reflexivity.
Qed.

Lemma matchHere_opt_then c re s :
  matchHere ((c, Opt) :: re) s
  = match s with
    | String y ys =>
        if c y then
          match matchHere re ys with
          | Some m => Some (S m)
          | None => matchHere re s
          end
        else matchHere re s
    | EmptyString => matchHere re s
    end.
Proof.
  destruct s as [| y ys]; [reflexivity |]. simpl.
  destruct (c y); [| reflexivity].
  destruct (matchHere re ys); reflexivity.
Qed.

Lemma digits_to_Z_take_class acc s :
  exists z, digits_to_Z acc (take_class is_digit s) = Some z.
Proof.
  revert acc. induction s as [| x xs IH]; intros acc; simpl; [eauto |].
  destruct (is_digit x) eqn:E; simpl; [| eauto]. rewrite E. apply IH.
Qed.

Lemma slice_cons x xs m :
  slice 0 (S m) (String x xs) = String x (slice 0 m xs).
Proof. unfold slice. rewrite !Nat.sub_0_r. reflexivity. Qed.

Lemma digits_text s m :
  matchHere [(is_digit, Plus)] s = Some m ->
  exists x xs,
    is_digit x = true /\ slice 0 m s = String x (take_class is_digit xs).
Proof.
  rewrite matchHere_plus. destruct s as [| x xs]; [discriminate |].
  destruct (is_digit x) eqn:Ex; [| discriminate].
  intros H; inversion H; subst. exists x, xs. split; [exact Ex |].
  rewrite slice_cons, slice_take_class. reflexivity.
Qed.

(** The text a [Number] leaf carries: a digit and the digits that follow
    it, after a minus sign or not. *)
Lemma Number_text input n r :
  Number input = Ret (n, r, true) ->
  exists x xs,
    is_digit x = true
    /\ (n = leaf "Number" (String x (take_class is_digit xs))
        \/ n = leaf "Number" (String "-" (String x (take_class is_digit xs)))).
Proof.
  unfold Number.
  pose proof (Regex_match "Number" [(is_byte "-", Opt); (is_digit, Plus)]
                input) as H.
  destruct (matchHere [(is_byte "-", Opt); (is_digit, Plus)] input)
    as [m |] eqn:Em; [| rewrite H; discriminate].
  destruct H as (-> & _ & _). intros E; inversion E; subst. clear E.
  rewrite matchHere_opt_then in Em.
  destruct input as [| y ys].
  - destruct (digits_text _ _ Em) as (x & xs & Ex & ->). eauto.
  - destruct (is_byte "-" y) eqn:Ey.
    + destruct (matchHere [(is_digit, Plus)] ys) as [m' |] eqn:Ed.
      * inversion Em; subst. apply Ascii.eqb_eq in Ey. subst y.
        destruct (digits_text _ _ Ed) as (x & xs & Ex & Hs).
        rewrite slice_cons, Hs. eauto.
      * destruct (digits_text _ _ Em) as (x & xs & Ex & ->). eauto.
    + destruct (digits_text _ _ Em) as (x & xs & Ex & ->). eauto.
Qed.

Lemma ParseFloat_digits negative x xs :
  is_digit x = true ->
  exists z,
    digits_to_Z 0 (String x (take_class is_digit xs)) = Some z
    /\ ParseFloat
         (if negative : bool
          then String "-" (String x (take_class is_digit xs))
          else String x (take_class is_digit xs))
       = Some (float_of_Z negative z).
Proof.
  intros Ex.
  destruct (digits_to_Z_take_class (10 * 0 + digit_value x) xs) as [z Hz].
  exists z.
  assert (Hd : digits_to_Z 0 (String x (take_class is_digit xs)) = Some z).
  { simpl. rewrite Ex. exact Hz. }
  split; [exact Hd |].
  destruct negative.
  - unfold ParseFloat. rewrite Hd. reflexivity.
  - unfold ParseFloat.
    destruct x as [[] [] [] [] [] [] [] []]; try discriminate Ex;
      rewrite Hd; reflexivity.
Qed.



(** * Evaluation without panic *)

Lemma calls_known_child known node i c :
  calls_known known node = true ->
  Children node !! i = Some (Some c) ->
  calls_known known c = true.
Proof.
  destruct node as [typ children value]. simpl.
  intros H Hi. apply andb_prop in H. destruct H as [_ H].
  rewrite forallb_forall in H.
  apply (H (Some c)). apply list_elem_of_In.
  eapply list_elem_of_lookup_2. exact Hi.
Qed.

Lemma calls_known_call known node name :
  calls_known known node = true ->
  Typ node = "FunctionCall" ->
  Children node !! 0 = Some (Some name) ->
  known (Value name) = true.
Proof.
  destruct node as [typ children value]. simpl.
  intros H -> Hname. apply andb_prop in H. destruct H as [H _].
  destruct children as [| [c |] children]; try discriminate.
  inversion Hname; subst. exact H.
Qed.

Lemma safe_bind {A B : Type} (m : Res A) (k : A -> Res B) :
  safe m -> (forall a, m = Ret a -> safe (k a)) -> safe (m ≫= k).
Proof. destruct m; simpl; auto. Qed.

Lemma calls_known_children known node :
  calls_known known node = true ->
  Forall (fun t => forall c, t = Some c -> calls_known known c = true)
    (Children node).
Proof.
  intros H. apply Forall_forall. intros t Ht c ->.
  apply list_elem_of_lookup_1 in Ht. destruct Ht as [i Hi].
  eapply calls_known_child; eassumption.
Qed.

Lemma frames_fmaps ev node memory h value h' funs :
  frames ev -> ev node memory h = Ret (value, h') ->
  fmaps h !! Functions memory = Some funs ->
  fmaps h' !! Functions memory = Some funs.
Proof. intros Hev E H. destruct (Hev _ _ _ _ _ E) as [_ ->]. exact H. Qed.

Section Safety.
Variable known : string -> bool.
Variable funs : gmap string MemoryFunction.
Variable ev : option Node -> Memory -> Heap -> Res (float * Heap).
Variable memory : Memory.
Hypothesis Hev : safe_evaluator known funs ev.
Hypothesis Hframes : frames ev.

Lemma fold_terms_safe tag op1 op2 terms number h :
  fmaps h !! Functions memory = Some funs ->
  Forall (fun t =>
            exists term operator operand,
              t = Some term
              /\ Children term !! 0 = Some (Some operator)
              /\ Children term !! 1 = Some (Some operand)
              /\ shaped operand) terms ->
  Forall (fun t => forall c, t = Some c -> calls_known known c = true) terms ->
  safe (fold_terms ev memory tag op1 op2 terms number h).
Proof.
  intros Hf Hterms. revert number h Hf.
  induction Hterms as [| t terms (term & operator & operand & -> & H0 & H1 & Hs)
                         _ IH];
    intros number h Hf Hcalls; simpl; [exact I |].
  inversion Hcalls as [| ? ? Hcall Hcalls']; subst.
  unfold child. rewrite H0. simpl. rewrite H1.
  assert (Hop : calls_known known operand = true).
  { eapply calls_known_child; [apply Hcall; reflexivity | exact H1]. }
  destruct (String.eqb (Typ operator) tag); simpl;
    (apply safe_bind; [apply Hev; assumption |]);
    intros [value h1] E; apply IH;
    [eapply frames_fmaps; eassumption | assumption
    | eapply frames_fmaps; eassumption | assumption].
Qed.

Lemma eval_arguments_safe nodes arguments h :
  fmaps h !! Functions memory = Some funs ->
  Forall (fun a =>
            exists argument expression,
              a = Some argument
              /\ Children argument !! 0 = Some (Some expression)
              /\ shaped expression) nodes ->
  Forall (fun t => forall c, t = Some c -> calls_known known c = true) nodes ->
  safe (eval_arguments ev memory nodes arguments h).
Proof.
  intros Hf Hnodes. revert arguments h Hf.
  induction Hnodes as [| a nodes (argument & expression & -> & H0 & Hs) _ IH];
    intros arguments h Hf Hcalls; simpl; [exact I |].
  inversion Hcalls as [| ? ? Hcall Hcalls']; subst.
  unfold child. rewrite H0. simpl.
  assert (Hex : calls_known known expression = true).
  { eapply calls_known_child; [apply Hcall; reflexivity | exact H0]. }
  apply safe_bind; [apply Hev; assumption |].
  intros [value h1] E. apply IH; [eapply frames_fmaps; eassumption | assumption].
Qed.
End Safety.

Lemma eval_arguments_fmaps ev memory nodes arguments h arguments' h' funs :
  frames ev ->
  eval_arguments ev memory nodes arguments h = Ret (arguments', h') ->
  fmaps h !! Functions memory = Some funs ->
  fmaps h' !! Functions memory = Some funs.
Proof.
  intros Hev E H.
  destruct (eval_arguments_extends ev memory Hev _ _ _ _ _ E) as [_ ->].
  exact H.
Qed.

Lemma Eval_safe known funs fuel :
  functions_known known funs -> safe_evaluator known funs (Eval fuel).
Proof.
  intros Hfuns. induction fuel as [| fuel IH]; [intros node memory h _ _ _; exact I |].
  intros node memory h Hf Hshaped Hcalls.
  pose proof (Eval_frames fuel) as Hframes.
  destruct Hshaped as [node c0 Htyp H0 Hs0
                      | node c0 terms Htyp H0 Hs0 H1 Hterms
                      | node c1 Htyp H1 Hs1
                      | node x Htyp Hx
                      | node Htyp
                      | node name args Htyp Hname Hargs Hnodes].
  - simpl. rewrite Htyp. simpl. unfold child. rewrite H0. simpl.
    apply IH; [assumption .. | eapply calls_known_child; eassumption].
  - assert (E : Eval (S fuel) (Some node) memory h
                = '(number, h1) ← Eval fuel (Some c0) memory h;
                  fold_terms (Eval fuel) memory
                    (if String.eqb (Typ node) "Sum" then "OpAdd" else "OpMult")
                    (if String.eqb (Typ node) "Sum"
                     then PrimFloat.add else PrimFloat.mul)
                    (if String.eqb (Typ node) "Sum"
                     then PrimFloat.sub else PrimFloat.div)
                    (Children terms) number h1).
    { simpl. unfold child. rewrite H0, H1.
      destruct Htyp as [-> | ->]; simpl;
        destruct (Eval fuel (Some c0) memory h) as [[number h1] | | |];
        reflexivity. }
    rewrite E. apply safe_bind.
    + apply IH; [assumption .. | eapply calls_known_child; eassumption].
    + intros [number h1] E0.
      apply (fold_terms_safe known funs); try assumption.
      * eapply frames_fmaps; eassumption.
      * apply calls_known_children. eapply calls_known_child; eassumption.
  - simpl. rewrite Htyp. simpl. unfold child. rewrite H1. simpl.
    apply IH; [assumption .. | eapply calls_known_child; eassumption].
  - simpl. rewrite Htyp. simpl. rewrite Hx. exact I.
  - simpl. rewrite Htyp. simpl. exact I.
  - pose proof (eval_arguments_safe known funs (Eval fuel) memory IH Hframes
                  (Children args) [] h Hf Hnodes
                  (calls_known_children known args
                     (calls_known_child known node 2 args Hcalls Hargs)))
      as Hsafe.
    destruct (eval_arguments (Eval fuel) memory (Children args) [] h)
      as [[arguments h1] | | |] eqn:Eargs; try contradiction.
    + rewrite (call_scope fuel memory h node name args arguments h1
                 Htyp Hname Hargs Eargs).
      pose proof (calls_known_call known node name Hcalls Htyp Hname)
        as Hknown.
      destruct (Hfuns _ Hknown) as (parameters & body & Hf' & Hsb & Hcb).
      rewrite (read_fun_lookup _ _ _ _ _ Hf Hf'). simpl.
      apply IH; [| assumption | assumption]. simpl.
      eapply eval_arguments_fmaps; eassumption.
    + simpl. rewrite Htyp. simpl. unfold child. rewrite Hname, Hargs. simpl.
      rewrite Eargs. exact I.
Qed.

(** ** What the rules of the grammar return *)

Lemma yields_Or ps c : yields (Or ps) c -> Exists (fun p => yields p c) ps.
Proof.
  intros (input & rest & H). induction ps as [| p ps IH]; simpl in H;
    [discriminate |].
  destruct (p input) as [[[pn pr] []] | | |] eqn:E; simpl in H;
    try discriminate.
  - inversion H; subst. left. exists input, rest. exact E.
  - right. apply IH, H.
Qed.

Lemma yields_Skipping skip p c : yields (Skipping skip p) c -> yields p c.
Proof.
  intros (input & rest & H). unfold Skipping in H.
  destruct (skip input) as [[[sn sr] sok] | | |]; simpl in H;
    try discriminate.
  eexists _, rest. exact H.
Qed.

Lemma yields_As outType p c :
  yields (As outType p) c -> exists c', c = tree outType [c'] /\ yields p c'.
Proof.
  intros (input & rest & H). unfold As in H.
  destruct (p input) as [[[pn pr] []] | | |] eqn:E; simpl in H;
    try discriminate.
  inversion H; subst. exists pn. split; [reflexivity |].
  exists input, rest. exact E.
Qed.

Lemma ThenSkipping_loop_yields outType skip ps acc rest n r :
  ThenSkipping_loop outType skip ps acc rest = Ret (n, r, true) ->
  exists children,
    n = tree outType (acc ++ children) /\ Forall2 yields ps children.
Proof.
  revert acc rest. induction ps as [| p ps IH]; intros acc rest; simpl.
  - intros H; inversion H; subst. exists []. rewrite app_nil_r.
    split; [reflexivity | constructor].
  - destruct (skip rest) as [[[sn sr] sok] | | |]; simpl; try discriminate.
    destruct (p _) as [[[pn pr] []] | | |] eqn:E; simpl; try discriminate.
    intros H. destruct (IH _ _ H) as (children & -> & Hall).
    exists (pn :: children). rewrite <- app_assoc. split; [reflexivity |].
    constructor; [eexists _, _; exact E | exact Hall].
Qed.

Lemma yields_ThenSkipping outType skip ps c :
  yields (ThenSkipping outType skip ps) c ->
  exists children, c = tree outType children /\ Forall2 yields ps children.
Proof.
  intros (input & rest & H). apply ThenSkipping_loop_yields in H. exact H.
Qed.

Lemma AtLeast_loop_yields fuel outType minimum p num acc rest n r :
  AtLeast_loop fuel outType minimum p num acc rest = Ret (n, r, true) ->
  exists children,
    n = tree outType (acc ++ children) /\ Forall (yields p) children.
Proof.
  revert num acc rest. induction fuel as [| fuel IH]; intros num acc rest;
    simpl; [discriminate |].
  destruct (p rest) as [[[pn pr] []] | | |] eqn:E; simpl; try discriminate.
  - intros H. destruct (IH _ _ _ H) as (children & -> & Hall).
    exists (pn :: children). rewrite <- app_assoc. split; [reflexivity |].
    constructor; [eexists _, _; exact E | exact Hall].
  - destruct (minimum <=? num)%Z; intros H; inversion H; subst.
    exists []. rewrite app_nil_r. split; [reflexivity | constructor].
Qed.

Lemma Some_loop_yields fuel outType p acc rest n r :
  Some_loop fuel outType p acc rest = Ret (n, r, true) ->
  exists children,
    n = tree outType (acc ++ children) /\ Forall (yields p) children.
Proof.
  revert acc rest. induction fuel as [| fuel IH]; intros acc rest;
    simpl; [discriminate |].
  destruct (p rest) as [[[pn pr] []] | | |] eqn:E; simpl; try discriminate.
  - intros H. destruct (IH _ _ H) as (children & -> & Hall).
    exists (pn :: children). rewrite <- app_assoc. split; [reflexivity |].
    constructor; [eexists _, _; exact E | exact Hall].
  - intros H; inversion H; subst.
    exists []. rewrite app_nil_r. split; [reflexivity | constructor].
Qed.

Lemma yields_AtLeast fuel outType minimum p c :
  yields (AtLeast fuel outType minimum p) c ->
  exists children, c = tree outType children /\ Forall (yields p) children.
Proof. intros (input & rest & H). apply AtLeast_loop_yields in H. exact H. Qed.

Lemma yields_Some fuel outType p c :
  yields (Some_ fuel outType p) c ->
  exists children, c = tree outType children /\ Forall (yields p) children.
Proof. intros (input & rest & H). apply Some_loop_yields in H. exact H. Qed.

Lemma yields_Regex outType regex c :
  yields (Regex outType regex) c -> exists value, c = leaf outType value.
Proof.
  intros (input & rest & H).
  pose proof (Regex_match outType regex input) as Hm.
  destruct (matchHere regex input) as [m |].
  - destruct Hm as (Hm & _). rewrite Hm in H. inversion H; subst. eauto.
  - rewrite Hm in H. discriminate.
Qed.

Lemma yields_Number c : yields Number c -> shaped_node c.
Proof.
  intros (input & rest & H).
  destruct (Number_text input c rest H) as (x & xs & Ex & [-> | ->]).
  - destruct (ParseFloat_digits false x xs Ex) as (z & _ & Hz).
    eexists. split; [reflexivity |].
    eapply shaped_Number; [reflexivity | exact Hz].
  - destruct (ParseFloat_digits true x xs Ex) as (z & _ & Hz).
    eexists. split; [reflexivity |].
    eapply shaped_Number; [reflexivity | exact Hz].
Qed.

Lemma yields_Variable c : yields Variable_ c -> shaped_node c.
Proof.
  intros H. apply yields_Regex in H. destruct H as [value ->].
  eexists. split; [reflexivity |]. apply shaped_Variable. reflexivity.
Qed.

(** Taking apart what a rule returns, along the combinators it is made
    of. *)
Ltac unyield :=
  repeat match goal with
  | H : yields (Or _) _ |- _ => apply yields_Or in H
  | H : Exists _ [] |- _ => inversion H
  | H : Exists _ (_ :: _) |- _ => inversion H; subst; clear H
  | H : yields (Skipping _ _) _ |- _ => apply yields_Skipping in H
  | H : yields (As _ _) _ |- _ =>
      apply yields_As in H; destruct H as (? & -> & H)
  | H : yields (ThenSkipping _ _ _) _ |- _ =>
      apply yields_ThenSkipping in H; destruct H as (? & -> & H)
  | H : yields (AtLeast _ _ _ _) _ |- _ =>
      apply yields_AtLeast in H; destruct H as (? & -> & H)
  | H : yields (Some_ _ _ _) _ |- _ =>
      apply yields_Some in H; destruct H as (? & -> & H)
  | H : Forall2 _ [] _ |- _ => inversion H; subst; clear H
  | H : Forall2 _ (_ :: _) _ |- _ => inversion H; subst; clear H
  end.

Section RulesShaped.
Variable fuel : nat.
Variable e : Parser.
Hypothesis He : forall c, yields e c -> shaped_node c.

Lemma FunctionCall_of_shaped c :
  yields (FunctionCall_of fuel e) c -> shaped_node c.
Proof.
  unfold FunctionCall_of. intros H. unyield.
  match goal with
  | H : yields Variable_ _ |- _ =>
      apply yields_Regex in H; destruct H as [name ->]
  end.
  eexists. split; [reflexivity |].
  eapply shaped_FunctionCall; try reflexivity. simpl.
  match goal with
  | H : Forall _ ?l |- Forall _ ?l =>
      eapply Forall_impl; [exact H |]
  end.
  intros a Ha. simpl in Ha. unyield.
  match goal with
  | H : yields e _ |- _ => apply He in H; destruct H as (node & -> & Hs)
  end.
  eexists _, _. exact (conj eq_refl (conj eq_refl Hs)).
Qed.

Lemma Unit_of_shaped c : yields (Unit_of fuel e) c -> shaped_node c.
Proof.
  unfold Unit_of. intros H. unyield.
  - match goal with
    | H : yields e _ |- _ => apply He in H; destruct H as (node & -> & Hs)
    end.
    eexists. split; [reflexivity |].
    eapply shaped_Unit; [reflexivity | reflexivity | exact Hs].
  - apply FunctionCall_of_shaped. assumption.
  - apply yields_Variable. assumption.
  - apply yields_Number. assumption.
Qed.

(** The terms of a chain over [Unit] or [Multiplication]. *)
Lemma chain_terms_shaped (operators operand : Parser) terms :
  (forall c, yields operand c -> shaped_node c) ->
  (forall c, yields operators c -> exists op, c = Some op) ->
  Forall (yields (ThenSkipping "Term" WS [operators; operand])) terms ->
  Forall (fun t =>
            exists term operator operand,
              t = Some term
              /\ Children term !! 0 = Some (Some operator)
              /\ Children term !! 1 = Some (Some operand)
              /\ shaped operand) terms.
Proof.
  intros Hoperand Hoperators Hterms.
  eapply Forall_impl; [exact Hterms |].
  intros t Ht. simpl in Ht. unyield.
  match goal with
  | H : yields operand _ |- _ =>
      apply Hoperand in H; destruct H as (node & -> & Hs)
  end.
  match goal with
  | H : yields operators _ |- _ =>
      apply Hoperators in H; destruct H as (op & ->)
  end.
  eexists _, _, _. exact (conj eq_refl (conj eq_refl (conj eq_refl Hs))).
Qed.

Lemma operators_some a ta b tb c :
  yields (Or [As ta (Character a); As tb (Character b)]) c ->
  exists op, c = Some op.
Proof. intros H. unyield; eauto. Qed.

Lemma Multiplication_of_shaped c :
  yields (Multiplication_of fuel e) c -> shaped_node c.
Proof.
  unfold Multiplication_of. intros H. unyield.
  - match goal with
    | H : yields (Unit_of fuel e) _ |- _ =>
        apply Unit_of_shaped in H; destruct H as (node & -> & Hs)
    end.
    eexists. split; [reflexivity |].
    eapply shaped_chain; [right; reflexivity | reflexivity | exact Hs
                         | reflexivity |].
    simpl. eapply chain_terms_shaped; [apply Unit_of_shaped | | eassumption].
    apply operators_some.
  - apply Unit_of_shaped. assumption.
Qed.

Lemma Sum_of_shaped c : yields (Sum_of fuel e) c -> shaped_node c.
Proof.
  unfold Sum_of. intros H. unyield.
  - match goal with
    | H : yields (Multiplication_of fuel e) _ |- _ =>
        apply Multiplication_of_shaped in H; destruct H as (node & -> & Hs)
    end.
    eexists. split; [reflexivity |].
    eapply shaped_chain; [left; reflexivity | reflexivity | exact Hs
                         | reflexivity |].
    simpl.
    eapply chain_terms_shaped; [apply Multiplication_of_shaped | | eassumption].
    apply operators_some.
  - apply Multiplication_of_shaped. assumption.
Qed.
End RulesShaped.

Lemma Expression_shaped fuel c : yields (Expression fuel) c -> shaped_node c.
Proof.
  revert c. induction fuel as [| fuel IH]; intros c.
  - intros (input & rest & H). discriminate H.
  - simpl. intros H. unyield.
    match goal with
    | H : yields (Sum_of _ _) _ |- _ =>
        apply (Sum_of_shaped fuel _ IH) in H; destruct H as (node & -> & Hs)
    end.
    eexists. split; [reflexivity |].
    eapply shaped_Expression; [reflexivity | reflexivity | exact Hs].
Qed.

(** ** Expressions without calls *)

Lemma terms_return terms :
  Forall (fun t =>
            exists term operator operand,
              t = Some term
              /\ Children term !! 0 = Some (Some operator)
              /\ Children term !! 1 = Some (Some operand)
              /\ exists bound, returns_from bound operand) terms ->
  exists bound,
    forall fuel memory tag op1 op2 number h,
      bound <= fuel ->
      exists value,
        fold_terms (Eval fuel) memory tag op1 op2 terms number h
        = Ret (value, h).
Proof.
  induction 1 as [| t terms (term & operator & operand & -> & H0 & H1 & b & Hb)
                    _ (bs & IH)].
  - exists 0. intros. simpl. eauto.
  - exists (Nat.max b bs). intros fuel memory tag op1 op2 number h Hle. simpl.
    unfold child. rewrite H0. simpl. rewrite H1.
    destruct (Hb fuel memory h) as [value Hv]; [lia |].
    destruct (String.eqb (Typ operator) tag); simpl; rewrite Hv; simpl;
      apply IH; lia.
Qed.

Lemma call_free_returns node :
  shaped node -> calls_known (fun _ => false) node = true ->
  exists bound, returns_from bound node.
Proof.
  revert node. fix IH 2. intros node Hs Hc.
  destruct Hs as [node c0 Htyp H0 Hs0
                 | node c0 terms Htyp H0 Hs0 H1 Hterms
                 | node c1 Htyp H1 Hs1
                 | node x Htyp Hx
                 | node Htyp
                 | node name args Htyp Hname Hargs Hnodes].
  - destruct (IH c0 Hs0 (calls_known_child _ _ _ _ Hc H0)) as [b Hb].
    exists (S b). intros fuel memory h Hle.
    destruct fuel as [| fuel]; [lia |].
    simpl. rewrite Htyp. simpl. unfold child. rewrite H0. simpl.
    apply Hb. lia.
  - destruct (IH c0 Hs0 (calls_known_child _ _ _ _ Hc H0)) as [b0 Hb0].
    pose proof (calls_known_children _ terms
                  (calls_known_child _ _ _ _ Hc H1)) as Hct.
    assert (Hts :
              Forall (fun t =>
                        exists term operator operand,
                          t = Some term
                          /\ Children term !! 0 = Some (Some operator)
                          /\ Children term !! 1 = Some (Some operand)
                          /\ exists bound, returns_from bound operand)
                (Children terms)).
    { revert Hct. generalize (Children terms) Hterms. clear Hterms.
      fix IHl 2. intros l Hl Hct.
      destruct Hl as [| t l (term & operator & operand & -> & Ht0 & Ht1 & Hso)
                        Hl'].
      - constructor.
      - constructor.
        + exists term, operator, operand.
          split; [reflexivity |]. split; [exact Ht0 |]. split; [exact Ht1 |].
          apply (IH operand Hso).
          eapply calls_known_child; [| exact Ht1].
          apply (Forall_inv Hct). reflexivity.
        + apply (IHl l Hl'). exact (Forall_inv_tail Hct). }
    destruct (terms_return _ Hts) as [bt Hbt].
    exists (S (Nat.max b0 bt)). intros fuel memory h Hle.
    destruct fuel as [| fuel]; [lia |].
    destruct (Hb0 fuel memory h) as [number Hn]; [lia |].
    simpl. unfold child. rewrite H0, H1.
    destruct Htyp as [-> | ->]; simpl; rewrite Hn; simpl; apply Hbt; lia.
  - destruct (IH c1 Hs1 (calls_known_child _ _ _ _ Hc H1)) as [b Hb].
    exists (S b). intros fuel memory h Hle.
    destruct fuel as [| fuel]; [lia |].
    simpl. rewrite Htyp. simpl. unfold child. rewrite H1. simpl.
    apply Hb. lia.
  - exists 1. intros fuel memory h Hle. destruct fuel as [| fuel]; [lia |].
    simpl. rewrite Htyp. simpl. rewrite Hx. eauto.
  - exists 1. intros fuel memory h Hle. destruct fuel as [| fuel]; [lia |].
    simpl. rewrite Htyp. simpl. eauto.
  - pose proof (calls_known_call _ _ _ Hc Htyp Hname) as Hk. discriminate Hk.
Qed.

(** X17: every tree the expression parser returns has the shape the
    evaluator walks: an [Expression] has its child, a [Sum] or a
    [Multiplication] has its first operand and a list of terms that each
    have an operator and an operand, a [Unit] has its middle child, a
    [Number] carries a decimal integer, and a [FunctionCall] has its name
    and arguments that each have their expression. *)
Theorem parsed_expression_is_shaped (fuel : nat) (input : string)
    (n : option Node) (r : string) :
  Expression fuel input = Ret (n, r, true) ->
  exists node, n = Some node /\ shaped node.
Proof. intros H. apply (Expression_shaped fuel). exists input, r. exact H. Qed.

Lemma parsed_expression_is_shaped_witness :
  exists node, x_times_2 = Some node /\ shaped node.
Proof.
  apply (parsed_expression_is_shaped 3 "x*2" x_times_2 "").
  vm_compute. reflexivity.
Defined.

Lemma shaped_the_node fuel input c r :
  Expression fuel input = Ret (c, r, true) -> shaped (the_node c).
Proof.
  intros H. destruct (Expression_shaped fuel c) as (node & -> & Hs);
    [exists input, r; exact H | exact Hs].
Qed.


Lemma only_f_known :
  functions_known only_f {["f" := mkMemoryFunction ["x"] x_times_2]}.
Proof.
  intros f Hf. apply String.eqb_eq in Hf. subst f.
  exists ["x"], (the_node x_times_2). split; [reflexivity |].
  split; [exact (shaped_the_node 3 "x*2" _ _ x_times_2_parsed) | reflexivity].
Qed.


(** X19: a parsed expression without calls always evaluates: with enough
    fuel [Eval] returns a number in every environment and leaves the store
    as it is, a variable that is not set reading as 0. *)
Theorem call_free_expression_evaluates (fuel : nat) (input rest : string)
    (node : Node) :
  Expression fuel input = Ret (Some node, rest, true) ->
  calls_known (fun _ => false) node = true ->
  exists bound,
    forall fuel' memory h,
      bound <= fuel' ->
      exists value, Eval fuel' (Some node) memory h = Ret (value, h).
Proof.
  intros Hparse Hcalls.
  pose proof (shaped_the_node _ _ _ _ Hparse) as Hs. simpl in Hs.
  exact (call_free_returns node Hs Hcalls).
Qed.

Lemma call_free_expression_evaluates_witness :
  exists bound,
    forall fuel' memory h,
      bound <= fuel' ->
      exists value,
        Eval fuel' (Some (the_node x_times_2)) memory h = Ret (value, h).
Proof.
  apply (call_free_expression_evaluates 3 "x*2" "" (the_node x_times_2)).
  - vm_compute. reflexivity.
  - reflexivity.
Defined.

(** * Programs without calls *)

Lemma Expression_typ fuel c :
  yields (Expression fuel) c ->
  exists node, c = Some node /\ Typ node = "Expression" /\ shaped node.
Proof.
  intros H. destruct (Expression_shaped fuel c H) as (node & -> & Hs).
  exists node. split; [reflexivity |]. split; [| exact Hs].
  destruct fuel as [| fuel]; [destruct H as (input & rest & H); discriminate H |].
  simpl in H. apply yields_As in H. destruct H as (c' & E & _).
  inversion E. reflexivity.
Qed.

Lemma statement_yields fuel c :
  yields (Or [Declaration fuel; Expression fuel]) c ->
  exists line, c = Some line /\ statement_ok line.
Proof.
  intros H. unyield.
  - match goal with
    | H : yields (Declaration fuel) _ |- _ => apply yields_Or in H
    end.
    unyield.
    + (* a variable declaration *)
      match goal with
      | H : yields (VariableDeclaration fuel) _ |- _ =>
          apply yields_ThenSkipping in H; destruct H as (? & -> & H)
      end.
      unyield.
      match goal with
      | H : yields (Expression fuel) _ |- _ =>
          apply Expression_shaped in H; destruct H as (ex & -> & Hs)
      end.
      match goal with
      | H : yields Variable_ _ |- _ =>
          apply yields_Regex in H; destruct H as [name ->]
      end.
      eexists. split; [reflexivity |]. left. split; [reflexivity |].
      eexists _, _. exact (conj eq_refl (conj eq_refl Hs)).
    + (* a function declaration *)
      match goal with
      | H : yields (FunctionDeclaration fuel) _ |- _ =>
          apply yields_ThenSkipping in H; destruct H as (? & -> & H)
      end.
      unyield.
      match goal with
      | H : yields Variable_ _ |- _ =>
          apply yields_Regex in H; destruct H as [name ->]
      end.
      eexists. split; [reflexivity |]. right. left.
      split; [reflexivity |].
      eexists _, _, _. split; [reflexivity |]. split; [reflexivity |].
      split; [| reflexivity]. simpl.
      match goal with
      | H : Forall _ ?l |- Forall _ ?l => eapply Forall_impl; [exact H |]
      end.
      intros p Hp. simpl in Hp. unyield.
      match goal with
      | H : yields Variable_ _ |- _ =>
          apply yields_Regex in H; destruct H as [pname ->]
      end.
      eexists _, _. exact (conj eq_refl eq_refl).
  - (* an expression *)
    match goal with
    | H : yields (Expression fuel) _ |- _ =>
        apply Expression_typ in H; destruct H as (ex & -> & Ht & Hs)
    end.
    eexists. split; [reflexivity |]. right. right. auto.
Qed.

Lemma Line_of_ok (statement delimiter : Parser) c :
  (forall d, yields statement d -> exists line, d = Some line /\ statement_ok line) ->
  yields (ThenSkipping "Line" WS [statement; delimiter]) c ->
  line_ok c.
Proof.
  intros Hst H. unyield.
  match goal with
  | H : yields statement _ |- _ =>
      apply Hst in H; destruct H as (line & -> & Hline)
  end.
  eexists _, _. split; [reflexivity | exact Hline].
Qed.

Lemma Line_ok fuel c :
  yields (ThenSkipping "Line" WS
            [Or [Declaration fuel; Expression fuel]; LineDelim]) c ->
  line_ok c.
Proof. apply Line_of_ok. apply statement_yields. Qed.

Lemma Program_lines fuel input n rest :
  Program fuel input = Ret (n, rest, true) ->
  exists lines, n = tree "Lines" lines /\ Forall line_ok lines.
Proof.
  intros H.
  assert (Hy : yields (Program fuel) n) by (exists input, rest; exact H).
  unfold Program in Hy. apply yields_Some in Hy.
  destruct Hy as (lines & -> & Hlines). exists lines. split; [reflexivity |].
  eapply Forall_impl; [exact Hlines |]. intros c. apply Line_ok.
Qed.

Lemma collect_parameters_returns nodes acc :
  Forall (fun p =>
            exists parameter pname,
              p = Some parameter
              /\ Children parameter !! 0 = Some (Some pname)) nodes ->
  exists parameters, collect_parameters nodes acc = Ret parameters.
Proof.
  intros H. revert acc.
  induction H as [| p nodes (parameter & pname & -> & H0) _ IH]; intros acc;
    simpl; [eauto |].
  unfold child. rewrite H0. simpl. apply IH.
Qed.

Lemma allocated_store_var memory h name value :
  allocated memory h ->
  exists h', store_var (Variables memory) name value h = Ret h'
             /\ allocated memory h'.
Proof.
  intros [[vars Hv] Hf]. unfold allocated, store_var.
  destruct (Variables memory) as [l |]; [| discriminate].
  rewrite reference_Some in *. rewrite Hv.
  eexists. split; [reflexivity |]. split; simpl; [| exact Hf].
  rewrite reference_Some.
  rewrite list_lookup_insert_eq by (eapply lookup_lt_Some; exact Hv). eauto.
Qed.

Lemma allocated_store_fun memory h name f :
  allocated memory h ->
  exists h', store_fun (Functions memory) name f h = Ret h'
             /\ allocated memory h'.
Proof.
  intros [Hv [funs Hf]]. unfold allocated, store_fun.
  destruct (Functions memory) as [l |]; [| discriminate].
  rewrite reference_Some in *. rewrite Hf.
  eexists. split; [reflexivity |]. split; simpl; [exact Hv |].
  rewrite reference_Some.
  rewrite list_lookup_insert_eq by (eapply lookup_lt_Some; exact Hf). eauto.
Qed.

(** A line without calls runs. *)
Lemma Exec_line_returns c :
  line_ok c ->
  (forall node, c = Some node -> calls_known (fun _ => false) node = true) ->
  exists bound,
    forall fuel memory h,
      bound <= fuel -> allocated memory h ->
      exists h' out,
        Exec_line fuel c memory h = Ret (h', out) /\ allocated memory h'.
Proof.
  intros (line & others & -> & Hline) Hcalls.
  specialize (Hcalls _ eq_refl). unfold statement_ok in Hline.
  assert (Hcl : calls_known (fun _ => false) line = true).
  { eapply (calls_known_child _ _ 0); [exact Hcalls | reflexivity]. }
  destruct Hline as [(Htyp & name & expression & H0 & H2 & Hs)
                    | [(Htyp & name & ps & body & H0 & H2 & Hps & H5)
                      | (Htyp & Hs)]].
  - destruct (call_free_returns expression Hs
                (calls_known_child _ _ _ _ Hcl H2)) as [bound Hb].
    exists bound. intros fuel memory h Hle Halloc.
    destruct (Hb fuel memory h Hle) as [value Hv].
    destruct (allocated_store_var memory h (Value name) value Halloc)
      as (h' & Hstore & Halloc').
    unfold Exec_line, child. simpl. rewrite Htyp. simpl.
    rewrite H0. simpl. rewrite H2. simpl. rewrite Hv. simpl.
    rewrite Hstore. simpl. eauto.
  - exists 0. intros fuel memory h _ Halloc.
    destruct (collect_parameters_returns (Children ps) [] Hps)
      as [parameters Hc].
    destruct (allocated_store_fun memory h (Value name)
                (mkMemoryFunction parameters body) Halloc)
      as (h' & Hstore & Halloc').
    unfold Exec_line, child. simpl. rewrite Htyp. simpl.
    rewrite H2. simpl. rewrite Hc. simpl. rewrite H0. simpl. rewrite H5.
    simpl. rewrite Hstore. simpl. eauto.
  - destruct (call_free_returns line Hs Hcl) as [bound Hb].
    exists bound. intros fuel memory h Hle Halloc.
    destruct (Hb fuel memory h Hle) as [value Hv].
    unfold Exec_line, child. simpl. rewrite Htyp. simpl. rewrite Hv. simpl.
    eauto.
Qed.

Lemma Exec_lines_return lines :
  Forall line_ok lines ->
  Forall (fun c => forall node, c = Some node ->
                               calls_known (fun _ => false) node = true)
    lines ->
  exists bound,
    forall fuel memory h printed,
      bound <= fuel -> allocated memory h ->
      exists out h', Exec_lines fuel lines memory h printed = (out, Ret h').
Proof.
  induction 1 as [| c lines Hc _ IH]; intros Hcalls.
  - exists 0. intros. simpl. eauto.
  - destruct (Exec_line_returns c Hc (Forall_inv Hcalls)) as [b Hb].
    destruct (IH (Forall_inv_tail Hcalls)) as [bs Hbs].
    exists (Nat.max b bs). intros fuel memory h printed Hle Halloc. simpl.
    destruct (Hb fuel memory h) as (h' & out & E & Halloc');
      [lia | exact Halloc |].
    rewrite E. apply Hbs; [lia | exact Halloc'].
Qed.

(** X20: a parsed program in which nothing is called runs to its end:
    with enough fuel [Exec] returns normally; no line panics on an index, a
    nil node or a map.  Function declarations may be there, as long as no
    line calls. *)
Theorem call_free_program_runs (fuel : nat) (input rest : string)
    (node : Node) :
  Program fuel input = Ret (Some node, rest, true) ->
  calls_known (fun _ => false) node = true ->
  exists bound,
    forall fuel',
      bound <= fuel' -> exists out h, Exec fuel' (Some node) = (out, Ret h).
Proof.
  intros Hparse Hcalls.
  destruct (Program_lines _ _ _ _ Hparse) as (lines & E & Hlines).
  inversion E; subst node. clear E.
  destruct (Exec_lines_return lines Hlines) as [bound Hb].
  { apply (calls_known_children _ _ Hcalls). }
  exists bound. intros fuel' Hle. unfold Exec. simpl.
  apply Hb; [exact Hle |]. split; simpl; eauto.
Qed.

Lemma call_free_program_runs_witness :
  exists bound,
    forall fuel',
      bound <= fuel' ->
      exists out h,
        Exec fuel'
          (Some (the_node
                   (tree "Lines"
                      [tree "Line"
                         [tree "Expression" [leaf "Number" "1"];
                          leaf Whitespace ""]])))
        = (out, Ret h).
Proof.
  apply (call_free_program_runs 2 "1+" "+"
           (the_node
              (tree "Lines"
                 [tree "Line"
                    [tree "Expression" [leaf "Number" "1"];
                     leaf Whitespace ""]]))).
  - vm_compute. reflexivity.
  - reflexivity.
Defined.
